(** * core-js-101, src/05-objects-tasks.js

    A shallow embedding of the four exports of the module ([Rectangle],
    [getJSON], [fromJSON], [cssSelectorBuilder]) and the properties the
    specification states about them.

    JavaScript objects are mutable and are reached through references, and
    [cssSelectorBuilder] derives every selector from its receiver with
    [Object.create], so a selector object delegates to the object it was
    derived from. The embedding therefore keeps an explicit store of
    objects with prototype links: a method is a computation over the store
    that may complete normally or throw. *)

From Stdlib Require Import ZArith Lia Ascii String Sorted.
From stdpp Require Import base tactics option list strings.

Local Open Scope string_scope.
Local Open Scope list_scope.
Local Open Scope Z_scope.

(** ** The object store *)

Module Js.

(** A reference is the allocation index of the object it points to. *)
Abbreviation loc := nat (only parsing).

(** The data properties a builder object can own. A property that is not
    an own property ([None]) is looked up on the prototype. The methods
    live on the base object only and are modelled as the functions of
    module [cssSelectorBuilder] below, taking [this] explicitly. *)
Record object := Object {
  proto : option loc;
  cssCode : option string;
  lastSelector : option string;
  correctOrder : option (list string);
  lastOrder : option Z
}.

Abbreviation heap := (list object) (only parsing).

(** How a call completes: normally with a value, by [throw new Error(msg)],
    or [Stuck] when it dereferences something the typed store does not
    hold (a dangling reference, a property defined nowhere on the
    prototype chain). *)
Inductive completion (A : Type) :=
| Normal (a : A)
| Throw (msg : string)
| Stuck.
Arguments Normal {A} a.
Arguments Throw {A} msg.
Arguments Stuck {A}.

Definition Eff (A : Type) : Type := heap -> completion A * heap.

Definition ret {A} (a : A) : Eff A := fun h => (Normal a, h).

Definition bind {A B} (m : Eff A) (k : A -> Eff B) : Eff B :=
  fun h =>
    match m h with
    | (Normal a, h') => k a h'
    | (Throw msg, h') => (Throw msg, h')
    | (Stuck, h') => (Stuck, h')
    end.

Definition throw {A} (msg : string) : Eff A := fun h => (Throw msg, h).

(** [Object.create(p)]: a new object with prototype [p] and no own
    property. *)
Definition fresh (p : loc) : object :=
  {| proto := Some p; cssCode := None; lastSelector := None;
     correctOrder := None; lastOrder := None |}.

Definition Object_create (p : loc) : Eff loc :=
  fun h => (Normal (length h), h ++ [fresh p]).

(** Property read: the own property if there is one, otherwise the
    prototype's, and so on. A chain visits each object at most once, so
    [length h] steps are enough. *)
Fixpoint lookup_chain {A} (field : object -> option A)
    (fuel : nat) (h : heap) (l : loc) : option A :=
  match fuel with
  | O => None
  | S fuel' =>
      match h !! l with
      | None => None
      | Some o =>
          match field o with
          | Some v => Some v
          | None =>
              match proto o with
              | Some p => lookup_chain field fuel' h p
              | None => None
              end
          end
      end
  end.

Definition read {A} (field : object -> option A) (h : heap) (l : loc)
    : option A :=
  lookup_chain field (length h) h l.

Definition get {A} (field : object -> option A) (l : loc) : Eff A :=
  fun h =>
    match read field h l with
    | Some v => (Normal v, h)
    | None => (Stuck, h)
    end.

(** Property write: always on the object itself, never on a prototype. *)
Definition with_cssCode (v : string) (o : object) : object :=
  {| proto := proto o; cssCode := Some v; lastSelector := lastSelector o;
     correctOrder := correctOrder o; lastOrder := lastOrder o |}.

Definition with_lastSelector (v : string) (o : object) : object :=
  {| proto := proto o; cssCode := cssCode o; lastSelector := Some v;
     correctOrder := correctOrder o; lastOrder := lastOrder o |}.

Definition with_lastOrder (v : Z) (o : object) : object :=
  {| proto := proto o; cssCode := cssCode o; lastSelector := lastSelector o;
     correctOrder := correctOrder o; lastOrder := Some v |}.

Definition set (upd : object -> object) (l : loc) : Eff unit :=
  fun h =>
    match h !! l with
    | Some o => (Normal tt, <[l := upd o]> h)
    | None => (Stuck, h)
    end.

(** [a && b] and [a || b] evaluate [b] only when [a] does not decide. *)
Definition and_then (a b : Eff bool) : Eff bool :=
  bind a (fun x => if x then b else ret false).

Definition or_else (a b : Eff bool) : Eff bool :=
  bind a (fun x => if x then ret true else b).

(** [Array.prototype.indexOf] on an array of strings: the first index
    holding a strictly equal element, [-1] when there is none. *)
Fixpoint indexOf_from (i : Z) (x : string) (a : list string) : Z :=
  match a with
  | [] => -1
  | y :: a' => if String.eqb y x then i else indexOf_from (i + 1) x a'
  end.

Definition indexOf (a : list string) (x : string) : Z := indexOf_from 0 x a.

End Js.

Export Js.

Declare Scope eff_scope.
Delimit Scope eff_scope with eff.
Notation "x <- m ;; k" := (bind m (fun x => k))
  (at level 100, m at level 99, k at level 200, right associativity) : eff_scope.
Notation "m ;;; k" := (bind m (fun _ => k))
  (at level 100, k at level 200, right associativity) : eff_scope.

(** ** cssSelectorBuilder *)

Module cssSelectorBuilder.

Local Open Scope eff_scope.

(** The object literal: its four data properties, no prototype. *)
Definition literal : object :=
  {| proto := None;
     cssCode := Some "";
     lastSelector := Some "";
     correctOrder :=
       Some ["element"; "id"; "class"; "attr"; "pseudoClass"; "pseudoElement"];
     lastOrder := Some (-1) |}.

(** The module-level constant [cssSelectorBuilder] is the first object
    allocated. *)
Definition self : loc := 0%nat.

Definition initial : heap := [literal].

Definition duplicate_message : string :=
  "Element, id and pseudo-element should not occur more then one time inside the selectord".

Definition order_message : string :=
  "Selector parts should be arranged in the following order: element, id, class, attribute, pseudo-class, pseudo-element".

Definition same_as_last (this : loc) (selector : string) : Eff bool :=
  last <- get lastSelector this ;; ret (String.eqb selector last).

Definition getLastElemError (this : loc) (selector : string) : Eff bool :=
  b <- or_else
         (or_else
            (and_then (ret (String.eqb selector "id"))
                      (same_as_last this selector))
            (and_then (ret (String.eqb selector "element"))
                      (same_as_last this selector)))
         (and_then (ret (String.eqb selector "pseudoElement"))
                   (same_as_last this selector)) ;;
  if b then ret true else ret false.

Definition incorrectOrder (this : loc) (selector : string) : Eff bool :=
  b <- and_then
         (lo <- get lastOrder this ;; ret (negb (lo =? -1)))
         (co <- get correctOrder this ;;
          lo <- get lastOrder this ;;
          ret (indexOf co selector <? lo)) ;;
  if b then ret true else ret false.

Definition copyBuilder (this : loc) (value selector : string) : Eff loc :=
  copiesSelectorBuilder <- Object_create this ;;
  dup <- getLastElemError copiesSelectorBuilder selector ;;
  if dup then throw duplicate_message else
  bad <- incorrectOrder copiesSelectorBuilder selector ;;
  if bad then throw order_message else
  co <- get correctOrder copiesSelectorBuilder ;;
  set (with_lastOrder (indexOf co selector)) copiesSelectorBuilder ;;;
  set (with_lastSelector selector) copiesSelectorBuilder ;;;
  code <- get cssCode copiesSelectorBuilder ;;
  set (with_cssCode (code +:+ value)) copiesSelectorBuilder ;;;
  ret copiesSelectorBuilder.

Definition stringify (this : loc) : Eff string :=
  copiesCSSCode <- get cssCode this ;;
  set (with_cssCode "") this ;;;
  set (with_lastOrder (-1)) this ;;;
  set (with_lastSelector "") this ;;;
  ret copiesCSSCode.

Definition element (this : loc) (value : string) : Eff loc :=
  copyBuilder this value "element".

Definition id (this : loc) (value : string) : Eff loc :=
  copyBuilder this ("#" +:+ value) "id".

Definition class (this : loc) (value : string) : Eff loc :=
  copyBuilder this ("." +:+ value) "class".

Definition attr (this : loc) (value : string) : Eff loc :=
  copyBuilder this ("[" +:+ value +:+ "]") "attr".

Definition pseudoClass (this : loc) (value : string) : Eff loc :=
  copyBuilder this (":" +:+ value) "pseudoClass".

Definition pseudoElement (this : loc) (value : string) : Eff loc :=
  copyBuilder this ("::" +:+ value) "pseudoElement".

Definition combine (this selector1 : loc) (combinator : string)
    (selector2 : loc) : Eff loc :=
  sel1 <- stringify selector1 ;;
  sel2 <- stringify selector2 ;;
  copyBuilder this (sel1 +:+ " " +:+ combinator +:+ " " +:+ sel2) "".

End cssSelectorBuilder.

Import cssSelectorBuilder.
Local Open Scope eff_scope.

(** ** Categories, chains and snapshots

    The vocabulary of the specification, tied to the strings and numbers the
    code works with. *)

Inductive category :=
| Element | Id | Class | Attr | PseudoClass | PseudoElement.

(** The [selector] argument each facade method hands to [copyBuilder]. *)
Definition name (c : category) : string :=
  match c with
  | Element => "element"
  | Id => "id"
  | Class => "class"
  | Attr => "attr"
  | PseudoClass => "pseudoClass"
  | PseudoElement => "pseudoElement"
  end.

(** The rank of a category in element < id < class < attribute <
    pseudo-class < pseudo-element. *)
Definition rank (c : category) : Z :=
  match c with
  | Element => 0
  | Id => 1
  | Class => 2
  | Attr => 3
  | PseudoClass => 4
  | PseudoElement => 5
  end.

(** The categories limited to one occurrence. *)
Definition singleton (c : category) : bool :=
  match c with
  | Element | Id | PseudoElement => true
  | Class | Attr | PseudoClass => false
  end.

(** The facade method of a category. *)
Definition append (this : loc) (c : category) (value : string) : Eff loc :=
  match c with
  | Element => element this value
  | Id => id this value
  | Class => class this value
  | Attr => attr this value
  | PseudoClass => pseudoClass this value
  | PseudoElement => pseudoElement this value
  end.

(** The fragment table of the specification (section 4.1). *)
Definition fragment (c : category) (value : string) : string :=
  match c with
  | Element => value
  | Id => "#" +:+ value
  | Class => "." +:+ value
  | Attr => "[" +:+ value +:+ "]"
  | PseudoClass => ":" +:+ value
  | PseudoElement => "::" +:+ value
  end.

(** A chain [this.m1(v1).m2(v2)...]: each call is made on the object the
    previous one returned. *)
Fixpoint chain (this : loc) (calls : list (category * string)) : Eff loc :=
  match calls with
  | [] => ret this
  | (c, v) :: rest => next <- append this c v ;; chain next rest
  end.

(** The text the specification promises for a chain. *)
Fixpoint fragments (calls : list (category * string)) : string :=
  match calls with
  | [] => ""
  | (c, v) :: rest => fragment c v +:+ fragments rest
  end.

(** [may_follow p c]: category [c] may be appended right after [p]
    according to the specification: its rank is not smaller, and it
    repeats [p] only if it is not a singleton category. *)
Definition may_follow (p c : category) : bool :=
  (rank p <? rank c) || ((rank p =? rank c) && negb (singleton c)).

(** The first call of a chain may be of any category. *)
Definition follows (prev : option category) (c : category) : bool :=
  match prev with
  | Some p => may_follow p c
  | None => true
  end.

(** A category sequence that respects the total order, with repeats only
    among class, attribute and pseudo-class. *)
Fixpoint valid_after (prev : option category)
    (calls : list (category * string)) : bool :=
  match calls with
  | [] => true
  | (c, _) :: rest =>
      follows prev c && valid_after (Some c) rest
  end.

Definition valid (calls : list (category * string)) : bool :=
  valid_after None calls.

(** What a caller can observe of a builder object: its text and its
    category state, as property reads. *)
Definition state (h : heap) (l : loc)
    : option string * option string * option Z :=
  (read cssCode h l, read lastSelector h l, read lastOrder h l).

Definition cleared : option string * option string * option Z :=
  (Some "", Some "", Some (-1)).

(** A snapshot is an object that owns its text and its category state:
    the base object, and every object [copyBuilder] returned. *)
Definition snapshot (h : heap) (l : loc) : Prop :=
  exists o, h !! l = Some o /\ is_Some (cssCode o)
            /\ is_Some (lastSelector o) /\ is_Some (lastOrder o).

(** The stores a program can reach: the base object is the literal, every
    other object was made by [Object.create] from an older one and has no
    [correctOrder] of its own. *)
Definition heap_ok (h : heap) : Prop :=
  h !! self = Some literal /\
  forall l o, h !! l = Some o -> l <> self ->
    correctOrder o = None /\
    exists p, proto o = Some p /\ (p < l)%nat.

(** The stores of a program that uses the builder: it starts from the
    literal and calls the methods on objects it holds. *)
Inductive reachable : list object -> Prop :=
| reach_initial : reachable initial
| reach_copyBuilder (h : heap) this value selector :
    reachable h -> (this < length h)%nat ->
    reachable (snd (copyBuilder this value selector h))
| reach_stringify (h : heap) this :
    reachable h -> (this < length h)%nat ->
    reachable (snd (stringify this h))
| reach_combine (h : heap) this s1 combinator s2 :
    reachable h -> (this < length h)%nat ->
    (s1 < length h)%nat -> (s2 < length h)%nat ->
    reachable (snd (combine this s1 combinator s2 h)).

(** [stringify]'s three writes on an object. *)
Definition reset (o : object) : object :=
  with_lastSelector "" (with_lastOrder (-1) (with_cssCode "" o)).

(** The category state an object shows after [prev] was appended last
    ([None]: nothing appended yet). *)
Definition last_name (prev : option category) : string :=
  match prev with
  | Some p => name p
  | None => ""
  end.

Definition last_rank (prev : option category) : Z :=
  match prev with
  | Some p => rank p
  | None => -1
  end.

(** The value of the condition of [getLastElemError] when
    [this.lastSelector] is [last]. *)
Definition repeats_last (selector last : string) : bool :=
  (String.eqb selector "id" && String.eqb selector last)
  || (String.eqb selector "element" && String.eqb selector last)
  || (String.eqb selector "pseudoElement" && String.eqb selector last).

(** The value of the condition of [incorrectOrder] when [this.lastOrder]
    is [lo] and [this.correctOrder] is [co]. *)
Definition below_last (co : list string) (selector : string) (lo : Z)
    : bool :=
  negb (lo =? -1) && (indexOf co selector <? lo).

(** The object [copyBuilder] returns once its three writes are done. *)
Definition derived (this : loc) (code selector : string) (order : Z)
    : object :=
  {| proto := Some this; cssCode := Some code;
     lastSelector := Some selector; correctOrder := None;
     lastOrder := Some order |}.

Definition order_array : list string :=
  ["element"; "id"; "class"; "attr"; "pseudoClass"; "pseudoElement"].

(** The double quote character, for selector texts that contain it. *)
Definition dquote : string := String (Ascii.ascii_of_nat 34) "".

(** ** Rectangle *)

Section RectangleObject.

(** The arguments are stored as they come; [*] is the multiplication of
    whatever they are. *)
Variable number : Type.
Variable mul : number -> number -> number.

Record rectangle_object := { width : number; height : number }.

Definition getArea (this : rectangle_object) : number :=
  mul (width this) (height this).

Definition Rectangle (width height : number) : rectangle_object :=
  let obj := {| width := width; height := height |} in
  obj.

End RectangleObject.

Arguments width {number} _.
Arguments height {number} _.
Arguments getArea {number} mul this.
Arguments Rectangle {number} width height.

(** ** getJSON and fromJSON *)

(** The values a member of a modelled object can hold: [undefined], [null],
    a boolean, a number that is an integer, or a string of code units
    below 256. *)
Inductive value :=
| VUndefined
| VNull
| VBool (b : bool)
| VNum (n : Z)
| VStr (s : string).

(** An object is the list of its own enumerable properties in enumeration
    order. *)
Abbreviation properties := (list (string * value)) (only parsing).


Definition quotation_mark : ascii := "034"%char.
Definition reverse_solidus : ascii := "092"%char.

(** The largest integer below which every integer is a number. *)
Definition MAX_SAFE_INTEGER : Z := 9007199254740991.

Definition is_digit (c : ascii) : bool :=
  (48 <=? N_of_ascii c)%N && (N_of_ascii c <=? 57)%N.

(** A property name made of digits only may be an array index, which an
    object enumerates before its other properties, in numeric order. *)
Fixpoint all_digits (s : string) : bool :=
  match s with
  | EmptyString => true
  | String c s' => is_digit c && all_digits s'
  end.

Definition index_like (key : string) : bool :=
  match key with
  | EmptyString => false
  | String _ _ => all_digits key
  end.

Fixpoint distinct (keys : list string) : bool :=
  match keys with
  | [] => true
  | k :: rest => negb (existsb (String.eqb k) rest) && distinct rest
  end.

(** The lists that stand for an object whose enumeration order is the
    order of the list: no name twice, no name that may be an array
    index. *)
Definition well_keyed (obj : properties) : bool :=
  distinct (map fst obj) && forallb (fun k => negb (index_like k)) (map fst obj).

(** *** JSON.stringify

    Modelled from ECMA-262 (JSON.stringify with one argument,
    SerializeJSONObject, QuoteJSONString, Number::toString), for the
    objects above. The result is [None] where the model does not reach: a
    list that is not [well_keyed], a number beyond [MAX_SAFE_INTEGER]. *)

Definition hex_digit (n : N) : ascii :=
  ascii_of_N (if (n <? 10)%N then 48 + n else 87 + n)%N.

(** One code unit of a quoted string. *)
Definition escape (c : ascii) : string :=
  let n := N_of_ascii c in
  if (n =? 8)%N then String reverse_solidus "b"
  else if (n =? 9)%N then String reverse_solidus "t"
  else if (n =? 10)%N then String reverse_solidus "n"
  else if (n =? 12)%N then String reverse_solidus "f"
  else if (n =? 13)%N then String reverse_solidus "r"
  else if (n =? 34)%N then String reverse_solidus (String quotation_mark "")
  else if (n =? 92)%N then String reverse_solidus (String reverse_solidus "")
  else if (n <? 32)%N
  then String reverse_solidus
         (String "u" (String "0" (String "0"
            (String (hex_digit (n / 16)) (String (hex_digit (n mod 16)) "")))))
  else String c "".

Fixpoint escaped (s : string) : string :=
  match s with
  | EmptyString => ""
  | String c s' => escape c +:+ escaped s'
  end.

Definition QuoteJSONString (s : string) : string :=
  String quotation_mark (escaped s +:+ String quotation_mark "").

Definition digit_char (d : Z) : ascii := ascii_of_N (Z.to_N (48 + d)).

(** The decimal digits of [n], most significant first, put before [acc];
    [fuel] bounds their number. *)
Fixpoint decimal_from (fuel : nat) (n : Z) (acc : string) : string :=
  match fuel with
  | O => acc
  | S fuel' =>
      let acc' := String (digit_char (n mod 10)) acc in
      if n <? 10 then acc' else decimal_from fuel' (n / 10) acc'
  end.

(** Number::toString on an integer of at most 16 digits. *)
Definition Number_toString (n : Z) : string :=
  if n <? 0 then String "-" (decimal_from 16 (- n) "")
  else decimal_from 16 n "".

(** SerializeJSONProperty on a value other than [undefined]. *)
Definition SerializeJSONProperty (v : value) : option string :=
  match v with
  | VUndefined => None
  | VNull => Some "null"
  | VBool true => Some "true"
  | VBool false => Some "false"
  | VNum n =>
      if Z.abs n <=? MAX_SAFE_INTEGER then Some (Number_toString n) else None
  | VStr s => Some (QuoteJSONString s)
  end.

(** The members JSON.stringify writes: those whose value is not
    [undefined]. *)
Fixpoint defined (obj : properties) : properties :=
  match obj with
  | [] => []
  | (k, VUndefined) :: rest => defined rest
  | (k, v) :: rest => (k, v) :: defined rest
  end.

Definition member_text (m : string * value) : option string :=
  match SerializeJSONProperty (snd m) with
  | Some t => Some (QuoteJSONString (fst m) +:+ String ":" t)
  | None => None
  end.

(** The member texts separated by commas. *)
Fixpoint members_text (ms : properties) : option string :=
  match ms with
  | [] => Some ""
  | [m] => member_text m
  | m :: rest =>
      match member_text m, members_text rest with
      | Some t, Some ts => Some (t +:+ String "," ts)
      | _, _ => None
      end
  end.

Definition JSON_stringify (obj : properties) : option string :=
  if well_keyed obj then
    match members_text (defined obj) with
    | Some ts => Some (String "{" (ts +:+ "}"))
    | None => None
    end
  else None.

(** *** JSON.parse

    Modelled from ECMA-262 (JSON.parse with one argument and the JSON
    grammar), for texts of code units below 256. The result is [None] when
    the host throws a SyntaxError and also where the model does not reach:
    a text whose value is not an object, a member that is an array or an
    object, a number with a fraction or an exponent or beyond
    [MAX_SAFE_INTEGER], minus zero, an escape of a code unit above 255, a
    name written twice, a name that may be an array index. *)

Definition is_whitespace (c : ascii) : bool :=
  let n := N_of_ascii c in
  (n =? 9)%N || (n =? 10)%N || (n =? 13)%N || (n =? 32)%N.

Fixpoint skip_ws (s : string) : string :=
  match s with
  | String c s' => if is_whitespace c then skip_ws s' else s
  | EmptyString => s
  end.

Definition hex_value (c : ascii) : option N :=
  let n := N_of_ascii c in
  if (48 <=? n)%N && (n <=? 57)%N then Some (n - 48)%N
  else if (97 <=? n)%N && (n <=? 102)%N then Some (n - 87)%N
  else if (65 <=? n)%N && (n <=? 70)%N then Some (n - 55)%N
  else None.

(** The code unit of [\uXXXX], when it is below 256. *)
Definition unicode_escape (a b c d : ascii) : option ascii :=
  match hex_value a, hex_value b, hex_value c, hex_value d with
  | Some x, Some y, Some z, Some w =>
      if (x =? 0)%N && (y =? 0)%N then Some (ascii_of_N (16 * z + w)) else None
  | _, _, _, _ => None
  end.

Definition simple_escape (c : ascii) : option ascii :=
  let n := N_of_ascii c in
  if (n =? 34)%N then Some quotation_mark
  else if (n =? 92)%N then Some reverse_solidus
  else if (n =? 47)%N then Some "/"%char
  else if (n =? 98)%N then Some "008"%char
  else if (n =? 102)%N then Some "012"%char
  else if (n =? 110)%N then Some "010"%char
  else if (n =? 114)%N then Some "013"%char
  else if (n =? 116)%N then Some "009"%char
  else None.

(** The characters of a string up to its closing quotation mark, and the
    text after it. *)
Fixpoint unquote (s : string) : option (string * string) :=
  match s with
  | EmptyString => None
  | String c s' =>
      if Ascii.eqb c quotation_mark then Some ("", s')
      else if Ascii.eqb c reverse_solidus then
        match s' with
        | String e s'' =>
            if Ascii.eqb e "u" then
              match s'' with
              | String a (String b (String x (String y s3))) =>
                  match unicode_escape a b x y, unquote s3 with
                  | Some u, Some (t, rest) => Some (String u t, rest)
                  | _, _ => None
                  end
              | _ => None
              end
            else
              match simple_escape e, unquote s'' with
              | Some u, Some (t, rest) => Some (String u t, rest)
              | _, _ => None
              end
        | EmptyString => None
        end
      else if (N_of_ascii c <? 32)%N then None
      else
        match unquote s' with
        | Some (t, rest) => Some (String c t, rest)
        | None => None
        end
  end.

Definition digit_value (c : ascii) : option Z :=
  if is_digit c then Some (Z.of_N (N_of_ascii c) - 48) else None.

Fixpoint digits (acc : Z) (s : string) : Z * string :=
  match s with
  | String c s' =>
      match digit_value c with
      | Some d => digits (10 * acc + d) s'
      | None => (acc, s)
      end
  | EmptyString => (acc, s)
  end.

(** [0], or a digit other than 0 followed by digits. *)
Definition unsigned (s : string) : option (Z * string) :=
  match s with
  | String c s' =>
      match digit_value c with
      | Some 0 =>
          match s' with
          | String c' _ => if is_digit c' then None else Some (0, s')
          | EmptyString => Some (0, s')
          end
      | Some d => Some (digits d s')
      | None => None
      end
  | EmptyString => None
  end.

Definition number (s : string) : option (value * string) :=
  match s with
  | String "-" s' =>
      match unsigned s' with
      | Some (n, rest) =>
          if (n =? 0) || (MAX_SAFE_INTEGER <? n) then None
          else Some (VNum (- n), rest)
      | None => None
      end
  | _ =>
      match unsigned s with
      | Some (n, rest) =>
          if MAX_SAFE_INTEGER <? n then None else Some (VNum n, rest)
      | None => None
      end
  end.

Definition literal_or_string (s : string) : option (value * string) :=
  match s with
  | String "n" (String "u" (String "l" (String "l" rest))) =>
      Some (VNull, rest)
  | String "t" (String "r" (String "u" (String "e" rest))) =>
      Some (VBool true, rest)
  | String "f" (String "a" (String "l" (String "s" (String "e" rest)))) =>
      Some (VBool false, rest)
  | String c s' =>
      if Ascii.eqb c quotation_mark then
        match unquote s' with
        | Some (t, rest) => Some (VStr t, rest)
        | None => None
        end
      else None
  | EmptyString => None
  end.

Definition parse_value (s : string) : option (value * string) :=
  match number s with
  | Some r => Some r
  | None => literal_or_string s
  end.

(** The members of an object from its first name to its closing brace,
    which must end the text. *)
Fixpoint parse_members (fuel : nat) (s : string) : option properties :=
  match fuel with
  | O => None
  | S fuel' =>
      match s with
      | String c s1 =>
          if Ascii.eqb c quotation_mark then
            match unquote s1 with
            | Some (k, s2) =>
                match skip_ws s2 with
                | String ":" s3 =>
                    match parse_value (skip_ws s3) with
                    | Some (v, s4) =>
                        match skip_ws s4 with
                        | String "," s5 =>
                            match parse_members fuel' (skip_ws s5) with
                            | Some ms => Some ((k, v) :: ms)
                            | None => None
                            end
                        | String "}" s5 =>
                            match skip_ws s5 with
                            | EmptyString => Some [(k, v)]
                            | String _ _ => None
                            end
                        | _ => None
                        end
                    | None => None
                    end
                | _ => None
                end
            | None => None
            end
          else None
      | EmptyString => None
      end
  end.

Definition JSON_parse (text : string) : option properties :=
  match skip_ws text with
  | String "{" s1 =>
      match skip_ws s1 with
      | String "}" s2 =>
          match skip_ws s2 with
          | EmptyString => Some []
          | String _ _ => None
          end
      | s1' =>
          match parse_members (String.length text) s1' with
          | Some ms => if well_keyed ms then Some ms else None
          | None => None
          end
      end
  | _ => None
  end.

(** What ends the digits of a number. *)
Definition stops_number (rest : string) : Prop :=
  match rest with
  | String c _ => is_digit c = false
  | EmptyString => True
  end.

(** What may come after a member: a comma or the closing brace. *)
Definition after_member (rest : string) : Prop :=
  exists r, rest = String "," r \/ rest = String "}" r.

(** A value whose text the model can write ([undefined] has none: a
    member that holds it is left out). *)
Definition representable (v : value) : Prop :=
  match v with
  | VNum n => Z.abs n <= MAX_SAFE_INTEGER
  | _ => True
  end.


(** *** The two functions of the source *)

Definition Object_values (obj : properties) : list value := map snd obj.

(** What [fromJSON] uses of its first argument. *)
Record prototype := { constructor : list value -> list (string * value) }.

Definition getJSON (obj : properties) : option string := JSON_stringify obj.

Definition fromJSON (proto : prototype) (json : string) : option properties :=
  match JSON_parse json with
  | Some obj =>
      let values := Object_values obj in
      Some (constructor proto values)
  | None => None
  end.

(** A positional constructor [function C(p1, ..., pn) { this.p1 = p1; ...
    this.pn = pn }]: a missing argument is [undefined], an extra one is
    ignored. *)
Fixpoint positional (params : list string) (args : list value)
    : properties :=
  match params with
  | [] => []
  | p :: params' =>
      (p, hd VUndefined args) :: positional params' (tl args)
  end.






(** ** Callers of the builder *)

(** The category state a chain leaves: that of its last call, or the
    receiver's when the chain is empty. *)
Fixpoint last_category (prev : option category)
    (calls : list (category * string)) : option category :=
  match calls with
  | [] => prev
  | (c, _) :: rest => last_category (Some c) rest
  end.

#[global] Instance category_eq_dec : EqDecision category.
Proof. solve_decision. Defined.

(** A selector as client code writes it (see the example in the source):
    a chain started on [cssSelectorBuilder], or [cssSelectorBuilder.combine]
    applied to two selectors written the same way. *)
Inductive selector :=
| Simple (calls : list (category * string))
| Combine (selector1 : selector) (combinator : string) (selector2 : selector).

(** Evaluation of the expression: arguments left to right, then the call. *)
Fixpoint build (e : selector) : Eff loc :=
  match e with
  | Simple calls => chain self calls
  | Combine selector1 combinator selector2 =>
      sel1 <- build selector1 ;;
      sel2 <- build selector2 ;;
      combine self sel1 combinator sel2
  end.

(** The CSS text the expression stands for. *)
Fixpoint text (e : selector) : string :=
  match e with
  | Simple calls => fragments calls
  | Combine selector1 combinator selector2 =>
      text selector1 +:+ " " +:+ combinator +:+ " " +:+ text selector2
  end.

Fixpoint well_formed (e : selector) : bool :=
  match e with
  | Simple calls => valid calls
  | Combine selector1 _ selector2 =>
      well_formed selector1 && well_formed selector2
  end.

(** An object either owns its text and a category state whose order is
    the index of its selector name, or owns none of the three. *)
Definition consistent_object (o : object) : Prop :=
  (exists code selector,
     cssCode o = Some code /\ lastSelector o = Some selector
     /\ lastOrder o = Some (indexOf order_array selector))
  \/ (cssCode o = None /\ lastSelector o = None /\ lastOrder o = None).

Definition consistent (h : heap) : Prop :=
  forall l o, h !! l = Some o -> consistent_object o.

(** * Properties *)

(** ** Reading through prototype chains *)

Section Reads.

Context {A : Type} (field : object -> option A).

Lemma read_own (h : heap) l o v :
  h !! l = Some o -> field o = Some v -> read field h l = Some v.
Proof.
  intros Hl Hv. unfold read.
  destruct (length h) as [|n] eqn:Hn.
  - apply lookup_lt_Some in Hl. lia.
  - simpl. now rewrite Hl, Hv.
Qed.

(** Prototypes are older objects, so a chain from [l] has at most [l]
    links: any fuel above [l] gives the same answer. *)
Lemma lookup_chain_fuel (h : heap) :
  heap_ok h ->
  forall f l, (l < f)%nat -> forall f', (l < f')%nat ->
    lookup_chain field f h l = lookup_chain field f' h l.
Proof.
  intros [Hbase Hback]. induction f as [|f IH]; intros l Hf f' Hf'; [lia|].
  destruct f' as [|f']; [lia|]. simpl.
  destruct (h !! l) as [o|] eqn:Hl; [|reflexivity].
  destruct (field o); [reflexivity|].
  destruct (proto o) as [p|] eqn:Hp; [|reflexivity].
  destruct (decide (l = self)) as [->|Hne].
  - rewrite Hbase in Hl. injection Hl as <-. discriminate Hp.
  - destruct (Hback l o Hl Hne) as [_ (p' & Hp' & Hlt)].
    rewrite Hp in Hp'. injection Hp' as <-.
    apply IH; lia.
Qed.

(** Appending objects does not change what an older object reads. *)
Lemma lookup_chain_app (h t : heap) :
  heap_ok h ->
  forall f l, (l < length h)%nat ->
    lookup_chain field f (h ++ t) l = lookup_chain field f h l.
Proof.
  intros [Hbase Hback]. induction f as [|f IH]; intros l Hlt; [reflexivity|].
  simpl. rewrite lookup_app_l by assumption.
  destruct (h !! l) as [o|] eqn:Hl; [|reflexivity].
  destruct (field o); [reflexivity|].
  destruct (proto o) as [p|] eqn:Hp; [|reflexivity].
  destruct (decide (l = self)) as [->|Hne].
  - rewrite Hbase in Hl. injection Hl as <-. discriminate Hp.
  - destruct (Hback l o Hl Hne) as [_ (p' & Hp' & Hlt')].
    rewrite Hp in Hp'. injection Hp' as <-.
    apply IH; lia.
Qed.

Lemma read_app (h t : heap) l :
  heap_ok h -> (l < length h)%nat ->
  read field (h ++ t) l = read field h l.
Proof.
  intros Hok Hlt. unfold read.
  rewrite lookup_chain_app by assumption.
  apply lookup_chain_fuel; [assumption| |assumption].
  rewrite length_app. lia.
Qed.

(** The object [Object.create this] made, whatever it owns by now, reads
    its own property or else what [this] reads. *)
Lemma read_new (h : heap) this x :
  heap_ok h -> (this < length h)%nat -> proto x = Some this ->
  read field (h ++ [x]) (length h) =
    match field x with
    | Some v => Some v
    | None => read field h this
    end.
Proof.
  intros Hok Hlt Hp. unfold read at 1.
  rewrite length_app, Nat.add_comm. simpl.
  rewrite list_lookup_middle by reflexivity.
  destruct (field x); [reflexivity|].
  rewrite Hp. now apply lookup_chain_app.
Qed.

(** On a reachable store every read of a property of the literal
    succeeds. *)
Lemma read_total (h : heap) l :
  heap_ok h -> is_Some (field literal) -> (l < length h)%nat ->
  is_Some (read field h l).
Proof.
  intros Hok Hlit Hlt. unfold read.
  assert (Hgen : forall f l, (l < f)%nat -> (l < length h)%nat ->
            is_Some (lookup_chain field f h l)).
  { destruct Hok as [Hbase Hback].
    induction f as [|f IH]; intros k Hk Hkh; [lia|]. simpl.
    destruct (lookup_lt_is_Some_2 h k Hkh) as [o Ho]. rewrite Ho.
    destruct (field o) eqn:Hfo; [eauto|].
    destruct (decide (k = self)) as [->|Hne].
    - rewrite Hbase in Ho. injection Ho as <-.
      rewrite Hfo in Hlit. now destruct Hlit.
    - destruct (Hback k o Ho Hne) as [_ (p & -> & Hp)].
      apply IH; lia. }
  now apply Hgen.
Qed.

End Reads.

(** Every object of a reachable store sees the base object's
    [correctOrder]. *)
Lemma read_correctOrder (h : heap) l :
  heap_ok h -> (l < length h)%nat ->
  read correctOrder h l = Some order_array.
Proof.
  intros Hok Hlt. unfold read.
  assert (Hgen : forall f k, (k < f)%nat -> (k < length h)%nat ->
            lookup_chain correctOrder f h k = correctOrder literal).
  { destruct Hok as [Hbase Hback].
    induction f as [|f IH]; intros k Hk Hkh; [lia|]. simpl.
    destruct (lookup_lt_is_Some_2 h k Hkh) as [o Ho]. rewrite Ho.
    destruct (decide (k = self)) as [->|Hne].
    - rewrite Hbase in Ho. now injection Ho as <-.
    - destruct (Hback k o Ho Hne) as [-> (p & -> & Hp)].
      apply IH; lia. }
  now rewrite Hgen.
Qed.

Lemma indexOf_name (c : category) :
  indexOf order_array (name c) = rank c.
Proof. now destruct c. Qed.

(** ** The methods, step by step *)

Lemma get_eq {A} (field : object -> option A) (h : heap) l v :
  read field h l = Some v -> get field l h = (Normal v, h).
Proof. intros H. unfold get. now rewrite H. Qed.

Lemma set_eq (h : heap) l o upd :
  h !! l = Some o -> set upd l h = (Normal tt, <[l := upd o]> h).
Proof. intros H. unfold set. now rewrite H. Qed.

Lemma bind_eq {A B} (m : Eff A) (k : A -> Eff B) (h h' : heap) a :
  m h = (Normal a, h') -> bind m k h = k a h'.
Proof. intros H. unfold bind. now rewrite H. Qed.

Lemma getLastElemError_eq (h : heap) this selector last :
  read lastSelector h this = Some last ->
  getLastElemError this selector h = (Normal (repeats_last selector last), h).
Proof.
  intros Hlast.
  cbv [getLastElemError or_else and_then same_as_last repeats_last
         bind ret get].
  destruct (String.eqb selector "id"), (String.eqb selector "element"),
    (String.eqb selector "pseudoElement");
    destruct (String.eqb selector last) eqn:E;
    repeat (cbn beta iota; first [rewrite Hlast | rewrite E]);
    reflexivity.
Qed.

Lemma incorrectOrder_eq (h : heap) this selector co lo :
  read correctOrder h this = Some co ->
  read lastOrder h this = Some lo ->
  incorrectOrder this selector h = (Normal (below_last co selector lo), h).
Proof.
  intros Hco Hlo.
  cbv [incorrectOrder and_then below_last bind ret get].
  rewrite Hlo. cbn beta iota.
  destruct (lo =? -1); cbn; [reflexivity|].
  rewrite Hco, Hlo.
  now destruct (indexOf co selector <? lo).
Qed.

Lemma insert_new (h : heap) (x y : object) :
  <[length h := y]> (h ++ [x]) = h ++ [y].
Proof.
  rewrite insert_app_r_alt by lia. now rewrite Nat.sub_diag.
Qed.

(** [copyBuilder] in one equation: which of the two errors it throws, or
    the object it appends to the store. *)
Lemma copyBuilder_eq (h : heap) this value selector code last lo :
  heap_ok h -> (this < length h)%nat ->
  state h this = (Some code, Some last, Some lo) ->
  copyBuilder this value selector h =
    if repeats_last selector last
    then (Throw duplicate_message, h ++ [fresh this])
    else if below_last order_array selector lo
    then (Throw order_message, h ++ [fresh this])
    else (Normal (length h),
          h ++ [derived this (code +:+ value) selector
                        (indexOf order_array selector)]).
Proof.
  intros Hok Hthis Hstate. injection Hstate as Hcode Hlast Hlo.
  unfold copyBuilder.
  rewrite (bind_eq _ _ h (h ++ [fresh this]) (length h)) by reflexivity.
  pose proof (read_new lastSelector h this (fresh this) Hok Hthis eq_refl)
    as Rlast. simpl in Rlast. rewrite Hlast in Rlast.
  pose proof (read_new lastOrder h this (fresh this) Hok Hthis eq_refl)
    as Rlo. simpl in Rlo. rewrite Hlo in Rlo.
  pose proof (read_new correctOrder h this (fresh this) Hok Hthis eq_refl)
    as Rco. simpl in Rco. rewrite (read_correctOrder h this Hok Hthis) in Rco.
  rewrite (bind_eq _ _ _ _ _ (getLastElemError_eq _ _ selector _ Rlast)).
  destruct (repeats_last selector last); [reflexivity|].
  rewrite (bind_eq _ _ _ _ _ (incorrectOrder_eq _ _ selector _ _ Rco Rlo)).
  destruct (below_last order_array selector lo); [reflexivity|].
  rewrite (bind_eq _ _ _ _ _ (get_eq _ _ _ _ Rco)).
  rewrite (bind_eq _ _ _ _ _
             (set_eq _ _ _ _ (list_lookup_middle h [] (fresh this) _ eq_refl))).
  rewrite insert_new.
  rewrite (bind_eq _ _ _ _ _
             (set_eq _ _ _ _ (list_lookup_middle h [] _ _ eq_refl))).
  rewrite insert_new.
  match goal with
  | |- context [h ++ [?x]] =>
      pose proof (read_new cssCode h this x Hok Hthis eq_refl) as Rcode
  end.
  simpl in Rcode. rewrite Hcode in Rcode.
  rewrite (bind_eq _ _ _ _ _ (get_eq _ _ _ _ Rcode)).
  rewrite (bind_eq _ _ _ _ _
             (set_eq _ _ _ _ (list_lookup_middle h [] _ _ eq_refl))).
  rewrite insert_new.
  reflexivity.
Qed.

(** [stringify] in one equation: the text of the receiver, and the
    receiver overwritten by its three writes. *)
Lemma stringify_eq (h : heap) this o code :
  h !! this = Some o -> read cssCode h this = Some code ->
  stringify this h = (Normal code, <[this := reset o]> h).
Proof.
  intros Ho Hcode. unfold stringify, reset.
  assert (Hlt : (this < length h)%nat) by (eapply lookup_lt_Some; eassumption).
  rewrite (bind_eq _ _ _ _ _ (get_eq _ _ _ _ Hcode)).
  rewrite (bind_eq _ _ _ _ _ (set_eq _ _ _ _ Ho)).
  erewrite bind_eq
    by (apply set_eq; apply list_lookup_insert_eq; assumption).
  rewrite list_insert_insert_eq.
  erewrite bind_eq
    by (apply set_eq; apply list_lookup_insert_eq; assumption).
  rewrite list_insert_insert_eq.
  reflexivity.
Qed.

(** ** Reachable stores stay reachable *)

Lemma heap_ok_initial : heap_ok initial.
Proof.
  split; [reflexivity|].
  intros [|l] o Hl Hne; [contradiction|]. discriminate Hl.
Qed.

Lemma heap_ok_app (h : heap) this x :
  heap_ok h -> (this < length h)%nat ->
  proto x = Some this -> correctOrder x = None ->
  heap_ok (h ++ [x]).
Proof.
  intros [Hbase Hback] Hthis Hp Hco. split.
  - rewrite lookup_app_l; [assumption|].
    eapply lookup_lt_Some; eassumption.
  - intros l o Hl Hne.
    destruct (decide (l < length h)%nat) as [Hlt|Hge].
    + rewrite lookup_app_l in Hl by assumption. now apply Hback.
    + rewrite lookup_app_r in Hl by lia.
      destruct (l - length h)%nat as [|n] eqn:Hn; [|discriminate Hl].
      simpl in Hl. injection Hl as <-.
      split; [assumption|]. exists this. split; [assumption|lia].
Qed.

Lemma heap_ok_reset (h : heap) this o :
  heap_ok h -> h !! this = Some o -> heap_ok (<[this := reset o]> h).
Proof.
  intros [Hbase Hback] Ho.
  assert (Hlt : (this < length h)%nat) by (eapply lookup_lt_Some; eassumption).
  split.
  - destruct (decide (this = self)) as [->|Hne].
    + rewrite list_lookup_insert_eq by assumption.
      rewrite Hbase in Ho. now injection Ho as <-.
    + now rewrite list_lookup_insert_ne.
  - intros l o' Hl Hne.
    destruct (decide (this = l)) as [->|Hne'].
    + rewrite list_lookup_insert_eq in Hl by assumption.
      injection Hl as <-. simpl. now apply Hback.
    + rewrite list_lookup_insert_ne in Hl by assumption. now apply Hback.
Qed.

(** ** What the objects of a store show after a step *)

Lemma state_app (h t : heap) l :
  heap_ok h -> (l < length h)%nat -> state (h ++ t) l = state h l.
Proof.
  intros Hok Hlt. unfold state. now rewrite !read_app.
Qed.

Lemma state_derived (h : heap) this code selector order :
  state (h ++ [derived this code selector order]) (length h)
  = (Some code, Some selector, Some order).
Proof.
  assert (Hl : (h ++ [derived this code selector order]) !! length h
               = Some (derived this code selector order))
    by now apply list_lookup_middle.
  unfold state.
  now rewrite (read_own cssCode _ _ _ code Hl eq_refl),
    (read_own lastSelector _ _ _ selector Hl eq_refl),
    (read_own lastOrder _ _ _ order Hl eq_refl).
Qed.

Lemma state_snapshot (h : heap) l o :
  h !! l = Some o -> is_Some (cssCode o) -> is_Some (lastSelector o) ->
  is_Some (lastOrder o) ->
  state h l = (cssCode o, lastSelector o, lastOrder o).
Proof.
  intros Ho [c Hc] [s Hs] [n Hn]. unfold state.
  rewrite (read_own _ _ _ _ _ Ho Hc), (read_own _ _ _ _ _ Ho Hs),
    (read_own _ _ _ _ _ Ho Hn).
  now rewrite Hc, Hs, Hn.
Qed.

Lemma state_reset (h : heap) l o :
  h !! l = Some o -> state (<[l := reset o]> h) l = cleared.
Proof.
  intros Ho.
  assert (Hlt : (l < length h)%nat) by (eapply lookup_lt_Some; eassumption).
  erewrite state_snapshot
    by (first [apply list_lookup_insert_eq; assumption | simpl; eauto]).
  reflexivity.
Qed.

(** A write on one object does not show on another snapshot. *)
Lemma state_insert_other (h : heap) l x l' :
  l <> l' -> snapshot h l' -> state (<[l := x]> h) l' = state h l'.
Proof.
  intros Hne (o & Ho & Hc & Hs & Hn).
  rewrite (state_snapshot h l' o) by assumption.
  apply state_snapshot; try assumption.
  now rewrite list_lookup_insert_ne.
Qed.

Lemma snapshot_insert_other (h : heap) l x l' :
  l <> l' -> snapshot h l' -> snapshot (<[l := x]> h) l'.
Proof.
  intros Hne (o & Ho & Hrest). exists o.
  now rewrite list_lookup_insert_ne.
Qed.

Lemma snapshot_self (h : heap) : heap_ok h -> snapshot h self.
Proof.
  intros [Hbase _]. exists literal. simpl. eauto 10.
Qed.

Lemma state_self (h : heap) : heap_ok h -> state h self = cleared.
Proof.
  intros [Hbase _].
  now rewrite (state_snapshot h self literal) by (simpl; eauto).
Qed.

(** On a reachable store every object shows a text and a category state. *)
Lemma state_total (h : heap) l :
  heap_ok h -> (l < length h)%nat ->
  exists code last lo, state h l = (Some code, Some last, Some lo).
Proof.
  intros Hok Hlt. unfold state.
  destruct (read_total cssCode h l Hok) as [code ->]; [simpl; eauto|lia|].
  destruct (read_total lastSelector h l Hok) as [last ->]; [simpl; eauto|lia|].
  destruct (read_total lastOrder h l Hok) as [lo ->]; [simpl; eauto|lia|].
  eauto.
Qed.

(** ** The facade methods *)

Lemma append_copyBuilder (this : loc) (c : category) (v : string) :
  append this c v = copyBuilder this (fragment c v) (name c).
Proof. now destruct c. Qed.

Lemma repeats_last_name (c : category) (prev : option category) :
  repeats_last (name c) (last_name prev)
  = match prev with
    | Some p => (rank p =? rank c) && singleton c
    | None => false
    end.
Proof. destruct c, prev as [[]|]; reflexivity. Qed.

Lemma below_last_name (c : category) (prev : option category) :
  below_last order_array (name c) (last_rank prev)
  = match prev with
    | Some p => rank c <? rank p
    | None => false
    end.
Proof. destruct c, prev as [[]|]; reflexivity. Qed.

(** What a facade method does on an object whose last category is [prev]. *)
Lemma append_eq (h : heap) this prev c v code :
  heap_ok h -> (this < length h)%nat ->
  state h this = (Some code, Some (last_name prev), Some (last_rank prev)) ->
  append this c v h =
    match prev with
    | Some p =>
        if (rank p =? rank c) && singleton c
        then (Throw duplicate_message, h ++ [fresh this])
        else if rank c <? rank p
        then (Throw order_message, h ++ [fresh this])
        else (Normal (length h),
              h ++ [derived this (code +:+ fragment c v) (name c) (rank c)])
    | None =>
        (Normal (length h),
         h ++ [derived this (code +:+ fragment c v) (name c) (rank c)])
    end.
Proof.
  intros Hok Hthis Hstate.
  rewrite append_copyBuilder.
  rewrite (copyBuilder_eq h this _ _ _ _ _ Hok Hthis Hstate).
  rewrite repeats_last_name, below_last_name, indexOf_name.
  now destruct prev.
Qed.

Lemma append_accepts (h : heap) this prev c v code :
  heap_ok h -> (this < length h)%nat ->
  state h this = (Some code, Some (last_name prev), Some (last_rank prev)) ->
  follows prev c = true ->
  append this c v h =
    (Normal (length h),
     h ++ [derived this (code +:+ fragment c v) (name c) (rank c)]).
Proof.
  intros Hok Hthis Hstate Hfollows.
  rewrite (append_eq h this prev c v code Hok Hthis Hstate).
  destruct prev as [p|]; [|reflexivity].
  unfold follows, may_follow in Hfollows.
  destruct (rank p =? rank c) eqn:Heq, (singleton c), (rank c <? rank p) eqn:Hlt,
    (rank p <? rank c) eqn:Hlt'; simpl in *; try reflexivity; try discriminate;
    lia.
Qed.

Lemma string_app_assoc (s1 s2 s3 : string) :
  (s1 +:+ s2) +:+ s3 = s1 +:+ (s2 +:+ s3).
Proof.
  induction s1 as [|a s1 IH]; [reflexivity|].
  change (String a ((s1 +:+ s2) +:+ s3) = String a (s1 +:+ (s2 +:+ s3))).
  now rewrite IH.
Qed.

Lemma string_app_nil_r (s : string) : s +:+ "" = s.
Proof.
  induction s as [|a s IH]; [reflexivity|].
  change (String a (s +:+ "") = String a s). now rewrite IH.
Qed.

Lemma stringify_returns (h : heap) l code :
  (l < length h)%nat -> read cssCode h l = Some code ->
  exists o, h !! l = Some o
            /\ stringify l h = (Normal code, <[l := reset o]> h).
Proof.
  intros Hlt Hcode.
  destruct (lookup_lt_is_Some_2 h l Hlt) as [o Ho].
  exists o. split; [assumption|]. now apply stringify_eq.
Qed.

(** A valid chain runs to its end, and the object it returns holds the
    receiver's text followed by the fragments in call order. *)
Lemma chain_valid (calls : list (category * string)) :
  forall (h : heap) this prev code,
    heap_ok h -> (this < length h)%nat ->
    state h this = (Some code, Some (last_name prev), Some (last_rank prev)) ->
    valid_after prev calls = true ->
    exists l h',
      chain this calls h = (Normal l, h')
      /\ heap_ok h' /\ (l < length h')%nat
      /\ read cssCode h' l = Some (code +:+ fragments calls).
Proof.
  induction calls as [|[c v] rest IH]; intros h this prev code Hok Hthis Hstate Hvalid.
  - exists this, h. simpl. rewrite string_app_nil_r.
    unfold state in Hstate. injection Hstate as Hcode _ _.
    split; [reflexivity|]. split; [assumption|]. split; assumption.
  - simpl in Hvalid. apply andb_prop in Hvalid as [Hfollows Hrest].
    simpl chain.
    rewrite (bind_eq _ _ _ _ _
               (append_accepts h this prev c v code Hok Hthis Hstate Hfollows)).
    set (x := derived this (code +:+ fragment c v) (name c) (rank c)).
    destruct (IH (h ++ [x]) (length h) (Some c) (code +:+ fragment c v))
      as (l & h' & Hrun & Hok' & Hl & Hcode').
    + now apply (heap_ok_app h this).
    + rewrite length_app. simpl. lia.
    + apply state_derived.
    + assumption.
    + exists l, h'. split; [assumption|]. split; [assumption|].
      split; [assumption|].
      rewrite Hcode'. simpl fragments. now rewrite string_app_assoc.
Qed.

Lemma chain_cons (this : loc) c v rest (h : heap) :
  chain this ((c, v) :: rest) h =
    match append this c v h with
    | (Normal next, h') => chain next rest h'
    | (Throw msg, h') => (Throw msg, h')
    | (Stuck, h') => (Stuck, h')
    end.
Proof. reflexivity. Qed.

(** The first call of a chain, made on the entry point, is accepted
    whatever its category. *)
Lemma append_self (h : heap) c v :
  heap_ok h ->
  append self c v h =
    (Normal (length h),
     h ++ [derived self (fragment c v) (name c) (rank c)]).
Proof.
  intros Hok.
  assert (Hlt : (self < length h)%nat).
  { destruct Hok as [Hbase _]. eapply lookup_lt_Some; eassumption. }
  apply (append_accepts h self None c v "" Hok Hlt); [|reflexivity].
  now apply state_self.
Qed.

(** A call on the object the previous call appended to the store. *)
Lemma append_on_new (h : heap) this p code c v :
  heap_ok h -> (this < length h)%nat ->
  let h1 := h ++ [derived this code (name p) (rank p)] in
  append (length h) c v h1 =
    if (rank p =? rank c) && singleton c
    then (Throw duplicate_message, h1 ++ [fresh (length h)])
    else if rank c <? rank p
    then (Throw order_message, h1 ++ [fresh (length h)])
    else (Normal (length h1),
          h1 ++ [derived (length h) (code +:+ fragment c v) (name c) (rank c)]).
Proof.
  intros Hok Hlt h1.
  apply (append_eq h1 (length h) (Some p) c v code).
  - now apply (heap_ok_app h this).
  - unfold h1. rewrite length_app. simpl. lia.
  - apply state_derived.
Qed.

Lemma self_allocated (h : heap) : heap_ok h -> (self < length h)%nat.
Proof. intros [Hbase _]. eapply lookup_lt_Some; eassumption. Qed.

(** ** Ordering and uniqueness *)

(** C2 (as the code has it). The chain element(a).id(b).element(c) fails,
    and the error it fails with is the ordering error: the second element
    (rank 0) follows an id (rank 1). The duplicate check only compares with
    the category appended immediately before, which here is id. *)
Theorem element_id_element_order_error (h : heap) (a b c : string) :
  heap_ok h ->
  fst (chain self [(Element, a); (Id, b); (Element, c)] h)
  = Throw order_message.
Proof.
  intros Hok. pose proof (self_allocated h Hok) as Hself.
  rewrite chain_cons, (append_self h Element a Hok). cbv beta iota.
  rewrite chain_cons.
  rewrite (append_on_new h self Element (fragment Element a) Id b Hok Hself).
  change ((rank Element =? rank Id) && singleton Id) with false.
  change (rank Id <? rank Element) with false. cbv beta iota zeta.
  rewrite chain_cons.
  match goal with
  | |- context [append ?l Element c (?h1 ++ [derived ?t ?code _ _])] =>
      rewrite (append_on_new h1 t Id code Element c)
  end.
  - reflexivity.
  - now apply (heap_ok_app h self).
  - rewrite length_app. simpl. lia.
Qed.

Lemma element_id_element_order_error_witness :
  heap_ok initial
  /\ fst (chain self [(Element, "div"); (Id, "x"); (Element, "span")] initial)
     = Throw order_message.
Proof.
  split; [exact heap_ok_initial|].
  apply (element_id_element_order_error initial "div" "x" "span").
  exact heap_ok_initial.
Defined.

(** C2 (as the specification has it) does not hold: on the initial store
    element('div').id('x').element('span') does not fail with the
    duplicate error. *)
Lemma element_id_element_not_duplicate_error :
  fst (chain self [(Element, "div"); (Id, "x"); (Element, "span")] initial)
  <> Throw duplicate_message.
Proof. vm_compute. discriminate. Qed.

Lemma messages_differ : duplicate_message <> order_message.
Proof. discriminate. Qed.

(** The category state of an object whose last appended category is [p]. *)
Lemma state_last (h : heap) this p :
  heap_ok h -> (this < length h)%nat ->
  read lastSelector h this = Some (name p) ->
  read lastOrder h this = Some (rank p) ->
  exists code,
    state h this
    = (Some code, Some (last_name (Some p)), Some (last_rank (Some p))).
Proof.
  intros Hok Hlt Hname Hrank.
  destruct (state_total h this Hok Hlt) as (code & last & lo & Hstate).
  exists code. unfold state in *. rewrite Hname, Hrank.
  now injection Hstate as -> _ _.
Qed.

(** C4. On an object whose last appended category is [p], appending a
    category of smaller rank throws the ordering error; appending one of
    equal or greater rank passes the ordering check ([incorrectOrder] is
    false, and the call does not throw the ordering error). In particular
    class(a).id(b) throws the ordering error. *)
Theorem ordering_check :
  (forall (h : heap) this p c v,
     heap_ok h -> (this < length h)%nat ->
     read lastSelector h this = Some (name p) ->
     read lastOrder h this = Some (rank p) ->
     (rank c < rank p -> fst (append this c v h) = Throw order_message)
     /\ (rank p <= rank c ->
         fst (incorrectOrder this (name c) h) = Normal false
         /\ fst (append this c v h) <> Throw order_message))
  /\ (forall (h : heap) a b,
        heap_ok h ->
        fst (chain self [(Class, a); (Id, b)] h) = Throw order_message).
Proof.
  split.
  - intros h this p c v Hok Hlt Hname Hrank.
    destruct (state_last h this p Hok Hlt Hname Hrank) as [code Hstate].
    rewrite (append_eq h this (Some p) c v code Hok Hlt Hstate).
    split.
    + intros Hless.
      replace (rank p =? rank c) with false by lia.
      replace (rank c <? rank p) with true by lia.
      reflexivity.
    + intros Hle. split.
      * rewrite (incorrectOrder_eq h this (name c) order_array (rank p)
                   (read_correctOrder h this Hok Hlt) Hrank).
        change (rank p) with (last_rank (Some p)) at 1.
        rewrite (below_last_name c (Some p)).
        now replace (rank c <? rank p) with false by lia.
      * replace (rank c <? rank p) with false by lia.
        destruct ((rank p =? rank c) && singleton c); simpl.
        -- intros H. injection H as H. now apply messages_differ.
        -- discriminate.
  - intros h a b Hok. pose proof (self_allocated h Hok) as Hself.
    rewrite chain_cons, (append_self h Class a Hok). cbv beta iota.
    rewrite chain_cons.
    now rewrite (append_on_new h self Class (fragment Class a) Id b Hok Hself).
Qed.

Lemma ordering_check_witness :
  let h := initial ++ [derived self ".a" "class" 2] in
  (heap_ok h /\ (1 < length h)%nat
   /\ read lastSelector h 1%nat = Some (name Class)
   /\ read lastOrder h 1%nat = Some (rank Class)
   /\ rank Id < rank Class /\ rank Class <= rank Attr)
  /\ fst (append 1%nat Id "b" h) = Throw order_message
  /\ fst (incorrectOrder 1%nat (name Attr) h) = Normal false.
Proof.
  intros h.
  assert (Hok : heap_ok h)
    by (apply (heap_ok_app initial self);
        [exact heap_ok_initial | vm_compute; lia | reflexivity | reflexivity]).
  assert (Hlt : (1 < length h)%nat) by (vm_compute; lia).
  split.
  { split; [exact Hok|]. split; [exact Hlt|].
    split; [reflexivity|]. split; [reflexivity|]. simpl. lia. }
  split.
  - apply (proj1 (proj1 ordering_check h 1%nat Class Id "b"
                    Hok Hlt eq_refl eq_refl)).
    simpl. lia.
  - apply (proj2 (proj1 ordering_check h 1%nat Class Attr "x"
                    Hok Hlt eq_refl eq_refl)).
    simpl. lia.
Defined.

(** What a facade call that returned has appended to the store. *)
Lemma append_returned (h : heap) this c v l h' :
  heap_ok h -> (this < length h)%nat ->
  append this c v h = (Normal l, h') ->
  exists code,
    read cssCode h this = Some code
    /\ l = length h
    /\ h' = h ++ [derived this (code +:+ fragment c v) (name c) (rank c)].
Proof.
  intros Hok Hlt Hrun.
  destruct (state_total h this Hok Hlt) as (code & last & lo & Hstate).
  rewrite append_copyBuilder in Hrun.
  rewrite (copyBuilder_eq h this _ _ code last lo Hok Hlt Hstate) in Hrun.
  rewrite indexOf_name in Hrun.
  exists code. unfold state in Hstate. injection Hstate as Hcode _ _.
  split; [assumption|].
  destruct (repeats_last (name c) last);
    [discriminate Hrun|destruct (below_last order_array (name c) lo)];
    [discriminate Hrun|].
  injection Hrun as <- <-. split; reflexivity.
Qed.

(** C5. Take the object a facade call of category [c] returned, on any
    receiver, and make a call of the same category on it. The second call
    throws the duplicate error exactly when [c] is element, id or
    pseudo-element; when [c] is class, attribute or pseudo-class it throws
    nothing and returns a new object that holds both fragments after the
    receiver's text. Started on the entry point, two calls of the same
    category in a row throw the duplicate error for the three singleton
    categories and return for the other three. *)
Theorem duplicate_check :
  (forall (h : heap) this c v w l h',
     heap_ok h -> (this < length h)%nat ->
     append this c v h = (Normal l, h') ->
     (fst (append l c w h') = Throw duplicate_message
      <-> c = Element \/ c = Id \/ c = PseudoElement)
     /\ (c = Class \/ c = Attr \/ c = PseudoClass ->
         exists code l' h'',
           read cssCode h this = Some code
           /\ append l c w h' = (Normal l', h'')
           /\ fst (stringify l' h'')
              = Normal ((code +:+ fragment c v) +:+ fragment c w)))
  /\ (forall (h : heap) c v w,
        heap_ok h ->
        fst (chain self [(c, v); (c, w)] h)
        = if singleton c then Throw duplicate_message
          else Normal (S (length h))).
Proof.
  split.
  - intros h this c v w l h' Hok Hlt Hrun.
    destruct (append_returned h this c v l h' Hok Hlt Hrun)
      as (code & Hcode & -> & ->).
    pose proof (append_on_new h this c (code +:+ fragment c v) c w Hok Hlt)
      as Hnext. cbv zeta in Hnext.
    rewrite Z.eqb_refl, Z.ltb_irrefl in Hnext.
    split.
    + rewrite Hnext.
      destruct c; simpl; split; intros H;
        try reflexivity; try discriminate H;
        intuition (try discriminate; auto).
    + intros Hc.
      assert (Hs : singleton c = false)
        by (destruct Hc as [->|[->| ->]]; reflexivity).
      rewrite Hs in Hnext. simpl in Hnext.
      exists code. eexists _, _. split; [assumption|].
      split; [exact Hnext|].
      match goal with
      | |- context [stringify (length ?h1) (?h1 ++ [derived ?t ?txt ?s ?o])] =>
          pose proof (state_derived h1 t txt s o) as Hd;
          destruct (stringify_returns (h1 ++ [derived t txt s o])
                      (length h1) txt) as (o' & _ & ->);
            [rewrite !length_app; simpl; lia | | reflexivity]
      end.
      unfold state in Hd. now injection Hd as -> _ _.
  - intros h c v w Hok. pose proof (self_allocated h Hok) as Hself.
    rewrite chain_cons, (append_self h c v Hok). cbv beta iota.
    rewrite chain_cons.
    rewrite (append_on_new h self c (fragment c v) c w Hok Hself).
    rewrite Z.eqb_refl, Z.ltb_irrefl.
    destruct (singleton c); simpl; [reflexivity|].
    rewrite length_app. simpl. f_equal. apply Nat.add_1_r.
Qed.

Lemma duplicate_check_witness :
  let h' := snd (id self "a" initial) in
  (heap_ok initial /\ (self < length initial)%nat
   /\ append self Id "a" initial = (Normal 1%nat, h'))
  /\ fst (append 1%nat Id "b" h') = Throw duplicate_message.
Proof.
  intros h'.
  assert (Hlt : (self < length initial)%nat) by (vm_compute; lia).
  assert (Hrun : append self Id "a" initial = (Normal 1%nat, h'))
    by reflexivity.
  split; [split; [exact heap_ok_initial | split; [exact Hlt | exact Hrun]]|].
  apply (proj1 (proj1 duplicate_check initial self Id "a" "b" 1%nat h'
                  heap_ok_initial Hlt Hrun)).
  right. left. reflexivity.
Defined.

(** ** The text of a chain *)

(** C6. A chain of calls whose categories respect the total order, with
    repeats only among class, attribute and pseudo-class, runs to its end
    when started on the entry point, and [stringify] on the object it
    returns gives the fragments (name, #name, .name, [expr], :name,
    ::name) concatenated in call order with nothing in between. The two
    examples of the documentation are instances. *)
Theorem valid_chain_text :
  (forall (h : heap) calls,
     heap_ok h -> valid calls = true ->
     exists l h',
       chain self calls h = (Normal l, h')
       /\ fst (stringify l h') = Normal (fragments calls))
  /\ fst ((l <- chain self [(Id, "main"); (Class, "container");
                            (Class, "editable")] ;;
           stringify l) initial)
     = Normal "#main.container.editable"
  /\ fst ((l <- chain self [(Element, "a");
                            (Attr, "href$=" +:+ dquote +:+ ".png" +:+ dquote);
                            (PseudoClass, "focus")] ;;
           stringify l) initial)
     = Normal ("a[href$=" +:+ dquote +:+ ".png" +:+ dquote +:+ "]:focus").
Proof.
  split; [|split; reflexivity].
  intros h calls Hok Hvalid.
  destruct (chain_valid calls h self None "" Hok (self_allocated h Hok)
              (state_self h Hok) Hvalid)
    as (l & h' & Hrun & Hok' & Hl & Hcode).
  exists l, h'. split; [assumption|].
  destruct (stringify_returns h' l _ Hl Hcode) as (o & _ & ->).
  reflexivity.
Qed.

Lemma valid_chain_text_witness :
  let calls := [(Element, "div"); (Id, "main"); (Class, "container");
                (Class, "draggable"); (Attr, "title"); (PseudoClass, "hover");
                (PseudoElement, "after")] in
  (heap_ok initial /\ valid calls = true)
  /\ exists l h',
       chain self calls initial = (Normal l, h')
       /\ fst (stringify l h')
          = Normal "div#main.container.draggable[title]:hover::after".
Proof.
  intros calls.
  split; [split; [exact heap_ok_initial | reflexivity]|].
  exact (proj1 valid_chain_text initial calls heap_ok_initial eq_refl).
Defined.

(** ** What a call writes *)

(** Whether it returns or throws, [copyBuilder] leaves the store as it was
    but for one object appended to it; when it returns, that object is the
    result and holds the receiver's text followed by [value]. *)
Lemma copyBuilder_appends (h : heap) this value selector :
  heap_ok h -> (this < length h)%nat ->
  exists x code,
    snd (copyBuilder this value selector h) = h ++ [x]
    /\ proto x = Some this /\ correctOrder x = None
    /\ read cssCode h this = Some code
    /\ forall l, fst (copyBuilder this value selector h) = Normal l ->
         l = length h
         /\ x = derived this (code +:+ value) selector
                        (indexOf order_array selector).
Proof.
  intros Hok Hlt.
  destruct (state_total h this Hok Hlt) as (code & last & lo & Hstate).
  rewrite (copyBuilder_eq h this value selector code last lo Hok Hlt Hstate).
  assert (Hcode : read cssCode h this = Some code)
    by (unfold state in Hstate; now injection Hstate as -> _ _).
  destruct (repeats_last selector last);
    [|destruct (below_last order_array selector lo)].
  - exists (fresh this), code. simpl. repeat split; try assumption; discriminate.
  - exists (fresh this), code. simpl. repeat split; try assumption; discriminate.
  - eexists _, code. simpl. split; [reflexivity|].
    repeat split; try assumption; now injection H as <-.
Qed.

Lemma copyBuilder_heap_ok (h : heap) this value selector :
  heap_ok h -> (this < length h)%nat ->
  heap_ok (snd (copyBuilder this value selector h)).
Proof.
  intros Hok Hlt.
  destruct (copyBuilder_appends h this value selector Hok Hlt)
    as (x & code & -> & Hp & Hco & _).
  now apply (heap_ok_app h this).
Qed.

Lemma stringify_heap_ok (h : heap) this :
  heap_ok h -> (this < length h)%nat -> heap_ok (snd (stringify this h)).
Proof.
  intros Hok Hlt.
  destruct (read_total cssCode h this Hok) as [code Hcode]; [simpl; eauto|lia|].
  destruct (stringify_returns h this code Hlt Hcode) as (o & Ho & ->).
  now apply heap_ok_reset.
Qed.

(** [combine] in one equation: two [stringify] calls, each overwriting its
    receiver, then [copyBuilder] on the store they leave. *)
Lemma combine_eq (h : heap) this s1 combinator s2 :
  heap_ok h -> (s1 < length h)%nat -> (s2 < length h)%nat ->
  exists o1 t1 o2 t2,
    h !! s1 = Some o1 /\ read cssCode h s1 = Some t1
    /\ stringify s1 h = (Normal t1, <[s1 := reset o1]> h)
    /\ <[s1 := reset o1]> h !! s2 = Some o2
    /\ read cssCode (<[s1 := reset o1]> h) s2 = Some t2
    /\ heap_ok (<[s2 := reset o2]> (<[s1 := reset o1]> h))
    /\ combine this s1 combinator s2 h
       = copyBuilder this (t1 +:+ " " +:+ combinator +:+ " " +:+ t2) ""
           (<[s2 := reset o2]> (<[s1 := reset o1]> h)).
Proof.
  intros Hok H1 H2.
  destruct (lookup_lt_is_Some_2 h s1 H1) as [o1 Ho1].
  destruct (read_total cssCode h s1 Hok) as [t1 Ht1]; [simpl; eauto|lia|].
  pose proof (heap_ok_reset h s1 o1 Hok Ho1) as Hok1.
  set (h1 := <[s1 := reset o1]> h) in *.
  assert (H2' : (s2 < length h1)%nat) by (unfold h1; now rewrite length_insert).
  destruct (lookup_lt_is_Some_2 h1 s2 H2') as [o2 Ho2].
  destruct (read_total cssCode h1 s2 Hok1) as [t2 Ht2]; [simpl; eauto|lia|].
  exists o1, t1, o2, t2.
  pose proof (stringify_eq h s1 o1 t1 Ho1 Ht1) as E1. fold h1 in E1.
  pose proof (stringify_eq h1 s2 o2 t2 Ho2 Ht2) as E2.
  repeat (split; [assumption|]).
  split; [now apply heap_ok_reset|].
  unfold combine.
  now rewrite (bind_eq _ _ _ _ _ E1), (bind_eq _ _ _ _ _ E2).
Qed.

(** [heap_ok] holds of every store a program can reach. *)
Lemma reachable_heap_ok (h : heap) : reachable h -> heap_ok h.
Proof.
  induction 1 as [|h this value selector _ IH Hthis
                  |h this _ IH Hthis
                  |h this s1 combinator s2 _ IH Hthis H1 H2].
  - exact heap_ok_initial.
  - now apply copyBuilder_heap_ok.
  - now apply stringify_heap_ok.
  - destruct (combine_eq h this s1 combinator s2 IH H1 H2)
      as (o1 & t1 & o2 & t2 & _ & _ & _ & _ & _ & Hok2 & ->).
    apply copyBuilder_heap_ok; [assumption|].
    now rewrite !length_insert.
Qed.

Lemma snapshot_reset (h : heap) l o :
  h !! l = Some o -> snapshot (<[l := reset o]> h) l.
Proof.
  intros Ho. exists (reset o). split.
  - apply list_lookup_insert_eq. eapply lookup_lt_Some; eassumption.
  - simpl. eauto.
Qed.

(** ** stringify and combine *)

(** C1 (as the code has it). [stringify] returns the text of the object it
    is called on and resets that object: afterwards the receiver shows an
    empty text and no last category. No other object is written, every
    other snapshot shows what it showed before, and the shared entry point
    is still the literal it was defined as. *)
Theorem stringify_resets_receiver (h : heap) this :
  heap_ok h -> (this < length h)%nat ->
  exists code h',
    read cssCode h this = Some code
    /\ stringify this h = (Normal code, h')
    /\ state h' this = cleared
    /\ (forall l, l <> this -> h' !! l = h !! l)
    /\ (forall l, l <> this -> snapshot h l -> state h' l = state h l)
    /\ h' !! self = Some literal
    /\ heap_ok h'.
Proof.
  intros Hok Hlt.
  destruct (read_total cssCode h this Hok) as [code Hcode]; [simpl; eauto|lia|].
  destruct (stringify_returns h this code Hlt Hcode) as (o & Ho & E).
  exists code, (<[this := reset o]> h).
  pose proof (heap_ok_reset h this o Hok Ho) as Hok'.
  split; [assumption|]. split; [assumption|].
  split; [now apply state_reset|].
  split; [intros l Hne; now apply list_lookup_insert_ne|].
  split; [intros l Hne Hsnap; apply state_insert_other; auto|].
  split; [apply Hok'|assumption].
Qed.

Lemma stringify_resets_receiver_witness :
  let h := initial ++ [derived self "div" "element" 0] in
  (heap_ok h /\ (1 < length h)%nat)
  /\ exists code h',
       read cssCode h 1%nat = Some code
       /\ stringify 1%nat h = (Normal code, h')
       /\ state h' 1%nat = cleared
       /\ (forall l, l <> 1%nat -> h' !! l = h !! l)
       /\ (forall l, l <> 1%nat -> snapshot h l -> state h' l = state h l)
       /\ h' !! self = Some literal
       /\ heap_ok h'.
Proof.
  intros h.
  assert (Hok : heap_ok h)
    by (apply (heap_ok_app initial self);
        [exact heap_ok_initial | vm_compute; lia | reflexivity | reflexivity]).
  assert (Hlt : (1 < length h)%nat) by (vm_compute; lia).
  split; [split; assumption|].
  exact (stringify_resets_receiver h 1%nat Hok Hlt).
Defined.

(** C1 (as the specification has it) does not hold: after
    element('div'), [stringify] on the returned snapshot returns 'div' and
    leaves that snapshot with an empty text and no last category. *)
Lemma stringify_changes_its_snapshot :
  let h := snd (element self "div" initial) in
  fst (element self "div" initial) = Normal 1%nat
  /\ state h 1%nat = (Some "div", Some "element", Some 0)
  /\ fst (stringify 1%nat h) = Normal "div"
  /\ state (snd (stringify 1%nat h)) 1%nat = (Some "", Some "", Some (-1))
  /\ state (snd (stringify 1%nat h)) 1%nat <> state h 1%nat.
Proof. vm_compute. repeat split; discriminate. Qed.

(** C9. [combine] consumes its two arguments: in the store it leaves,
    whether it returned or threw, both arguments show an empty text and no
    last category, and [stringify] on either returns the empty string. *)
Theorem combine_clears_arguments (h : heap) this s1 combinator s2 :
  heap_ok h ->
  (this < length h)%nat -> (s1 < length h)%nat -> (s2 < length h)%nat ->
  let h' := snd (combine this s1 combinator s2 h) in
  state h' s1 = cleared /\ state h' s2 = cleared
  /\ fst (stringify s1 h') = Normal ""
  /\ fst (stringify s2 h') = Normal "".
Proof.
  intros Hok Hthis H1 H2.
  destruct (combine_eq h this s1 combinator s2 Hok H1 H2)
    as (o1 & t1 & o2 & t2 & Ho1 & Ht1 & _ & Ho2 & Ht2 & Hok2 & ->).
  set (h1 := <[s1 := reset o1]> h) in *.
  set (h2 := <[s2 := reset o2]> h1) in *.
  assert (Hlen : length h2 = length h)
    by (unfold h2, h1; now rewrite !length_insert).
  destruct (copyBuilder_appends h2 this
              (t1 +:+ " " +:+ combinator +:+ " " +:+ t2) "" Hok2)
    as (x & code & -> & Hp & Hco & _); [lia|].
  assert (S1 : state (h2 ++ [x]) s1 = cleared).
  { rewrite state_app by (assumption || lia).
    destruct (decide (s2 = s1)) as [->|Hne].
    - now apply state_reset.
    - unfold h2. rewrite state_insert_other; [|assumption|].
      + now apply state_reset.
      + now apply snapshot_reset. }
  assert (S2 : state (h2 ++ [x]) s2 = cleared).
  { rewrite state_app by (assumption || lia). now apply state_reset. }
  cbv zeta. split; [assumption|]. split; [assumption|].
  assert (Hlen' : length (h2 ++ [x]) = S (length h))
    by (rewrite length_app; simpl; lia).
  split.
  - destruct (stringify_returns (h2 ++ [x]) s1 "") as (o & _ & ->);
      [lia| |reflexivity].
    unfold state, cleared in S1. now injection S1 as -> _ _.
  - destruct (stringify_returns (h2 ++ [x]) s2 "") as (o & _ & ->);
      [lia| |reflexivity].
    unfold state, cleared in S2. now injection S2 as -> _ _.
Qed.

Lemma combine_clears_arguments_witness :
  let h := (initial ++ [derived self "div" "element" 0])
             ++ [derived self "table" "element" 0] in
  (heap_ok h /\ (self < length h)%nat /\ (1 < length h)%nat
   /\ (2 < length h)%nat)
  /\ fst (combine self 1%nat "+" 2%nat h) = Normal 3%nat
  /\ state h 1%nat = (Some "div", Some "element", Some 0)
  /\ state (snd (combine self 1%nat "+" 2%nat h)) 1%nat = cleared
  /\ state (snd (combine self 1%nat "+" 2%nat h)) 2%nat = cleared
  /\ fst (stringify 1%nat (snd (combine self 1%nat "+" 2%nat h))) = Normal ""
  /\ fst (stringify 2%nat (snd (combine self 1%nat "+" 2%nat h))) = Normal "".
Proof.
  intros h.
  assert (Hok : heap_ok h).
  { apply (heap_ok_app _ self); [|vm_compute; lia|reflexivity|reflexivity].
    apply (heap_ok_app initial self);
      [exact heap_ok_initial | vm_compute; lia | reflexivity | reflexivity]. }
  assert (H0 : (self < length h)%nat) by (vm_compute; lia).
  assert (H1 : (1 < length h)%nat) by (vm_compute; lia).
  assert (H2 : (2 < length h)%nat) by (vm_compute; lia).
  split; [repeat (split; [assumption|]); assumption|].
  split; [reflexivity|]. split; [reflexivity|].
  exact (combine_clears_arguments h self 1%nat "+" 2%nat Hok H0 H1 H2).
Defined.

(** C7. [combine] called on the entry point returns a new selector, and
    [stringify] on it gives the text [stringify] returned for the left
    argument, a space, the combinator as given, a space, and the text
    [stringify] returned for the right argument, which is the text the
    right argument showed before the call whenever it is a snapshot other
    than the left argument. The new selector has no category: neither check
    rejects the call, and the result shows the empty selector name and
    order -1. The example of the documentation is an instance. *)
Theorem combine_text :
  (forall (h : heap) s1 combinator s2,
     heap_ok h -> (s1 < length h)%nat -> (s2 < length h)%nat ->
     exists t1 t2 l h',
       fst (stringify s1 h) = Normal t1
       /\ read cssCode h s1 = Some t1
       /\ fst (stringify s2 (snd (stringify s1 h))) = Normal t2
       /\ (s1 <> s2 -> snapshot h s2 -> read cssCode h s2 = Some t2)
       /\ combine self s1 combinator s2 h = (Normal l, h')
       /\ fst (stringify l h')
          = Normal (t1 +:+ " " +:+ combinator +:+ " " +:+ t2)
       /\ state h' l
          = (Some (t1 +:+ " " +:+ combinator +:+ " " +:+ t2),
             Some "", Some (-1)))
  /\ fst ((a <- element self "div" ;;
           b <- element self "table" ;;
           s <- combine self a "+" b ;;
           stringify s) initial)
     = Normal "div + table".
Proof.
  split; [|reflexivity].
  intros h s1 combinator s2 Hok H1 H2.
  destruct (combine_eq h self s1 combinator s2 Hok H1 H2)
    as (o1 & t1 & o2 & t2 & Ho1 & Ht1 & E1 & Ho2 & Ht2 & Hok2 & E).
  set (h1 := <[s1 := reset o1]> h) in *.
  set (h2 := <[s2 := reset o2]> h1) in *.
  set (text := t1 +:+ " " +:+ combinator +:+ " " +:+ t2) in *.
  pose proof (copyBuilder_eq h2 self text "" "" "" (-1) Hok2
                (self_allocated h2 Hok2) (state_self h2 Hok2)) as Ecopy.
  change (copyBuilder self text "" h2
          = (Normal (length h2), h2 ++ [derived self text "" (-1)])) in Ecopy.
  exists t1, t2, (length h2), (h2 ++ [derived self text "" (-1)]).
  split; [now rewrite E1|]. split; [assumption|].
  split; [rewrite E1; simpl; fold h1;
          now rewrite (stringify_eq h1 s2 o2 t2 Ho2 Ht2)|].
  split.
  { intros Hne Hsnap.
    pose proof (state_insert_other h s1 (reset o1) s2 Hne Hsnap) as Hsame.
    fold h1 in Hsame. unfold state in Hsame.
    injection Hsame as Hsame _ _. now rewrite <- Hsame. }
  split; [now rewrite E, Ecopy|].
  pose proof (state_derived h2 self text "" (-1)) as Hstate.
  split; [|assumption].
  destruct (stringify_returns (h2 ++ [derived self text "" (-1)])
              (length h2) text) as (o & _ & ->); [| |reflexivity].
  - rewrite length_app. simpl. lia.
  - unfold state in Hstate. now injection Hstate as -> _ _.
Qed.

Lemma combine_text_witness :
  let h := (initial ++ [derived self "div" "element" 0])
             ++ [derived self "table" "element" 0] in
  (heap_ok h /\ (1 < length h)%nat /\ (2 < length h)%nat)
  /\ exists t1 t2 l h',
       fst (stringify 1%nat h) = Normal t1
       /\ read cssCode h 1%nat = Some t1
       /\ fst (stringify 2%nat (snd (stringify 1%nat h))) = Normal t2
       /\ (1%nat <> 2%nat -> snapshot h 2%nat ->
           read cssCode h 2%nat = Some t2)
       /\ combine self 1%nat ">" 2%nat h = (Normal l, h')
       /\ fst (stringify l h')
          = Normal (t1 +:+ " " +:+ ">" +:+ " " +:+ t2)
       /\ state h' l
          = (Some (t1 +:+ " " +:+ ">" +:+ " " +:+ t2), Some "", Some (-1)).
Proof.
  intros h.
  assert (Hok : heap_ok h).
  { apply (heap_ok_app _ self); [|vm_compute; lia|reflexivity|reflexivity].
    apply (heap_ok_app initial self);
      [exact heap_ok_initial | vm_compute; lia | reflexivity | reflexivity]. }
  assert (H1 : (1 < length h)%nat) by (vm_compute; lia).
  assert (H2 : (2 < length h)%nat) by (vm_compute; lia).
  split; [split; [assumption|split; assumption]|].
  exact (proj1 combine_text h 1%nat ">" 2%nat Hok H1 H2).
Defined.

(** ** Which objects a call leaves alone *)

(** C3 (as the code has it). The six chaining methods never write an
    existing object: whether the call returns or throws, every object of
    the store shows the text and category state it showed before, and a
    call that returns gives a new object that shows the receiver's text
    followed by the new fragment and the new category. [stringify] writes
    its receiver only and [combine] its two arguments only: every other
    snapshot shows what it showed before, and what [combine] returns is a
    new object. *)
Theorem calls_frame (h : heap) :
  heap_ok h ->
  (forall this c v,
     (this < length h)%nat ->
     let (r, h') := append this c v h in
     (forall l, (l < length h)%nat ->
        h' !! l = h !! l /\ state h' l = state h l)
     /\ (forall new, r = Normal new ->
           new = length h
           /\ exists code,
                read cssCode h this = Some code
                /\ state h' new
                   = (Some (code +:+ fragment c v), Some (name c),
                      Some (rank c))))
  /\ (forall this l,
        (this < length h)%nat -> l <> this -> snapshot h l ->
        state (snd (stringify this h)) l = state h l)
  /\ (forall this s1 combinator s2,
        (this < length h)%nat -> (s1 < length h)%nat ->
        (s2 < length h)%nat ->
        let (r, h') := combine this s1 combinator s2 h in
        (forall l, l <> s1 -> l <> s2 -> snapshot h l ->
           state h' l = state h l)
        /\ (forall new, r = Normal new -> new = length h)).
Proof.
  intros Hok. split; [|split].
  - intros this c v Hlt.
    destruct (append this c v h) as [r h'] eqn:E.
    rewrite append_copyBuilder in E.
    destruct (copyBuilder_appends h this (fragment c v) (name c) Hok Hlt)
      as (x & code & Hh' & Hp & Hco & Hcode & Hnew).
    rewrite E in Hh', Hnew. simpl in Hh', Hnew. subst h'.
    split.
    + intros l Hl. split; [now apply lookup_app_l | now apply state_app].
    + intros new ->. destruct (Hnew new eq_refl) as [-> ->].
      split; [reflexivity|]. exists code. split; [assumption|].
      rewrite indexOf_name. apply state_derived.
  - intros this l Hlt Hne Hsnap.
    destruct (read_total cssCode h this Hok) as [code Hcode];
      [simpl; eauto|lia|].
    destruct (stringify_returns h this code Hlt Hcode) as (o & _ & ->).
    apply state_insert_other; auto.
  - intros this s1 combinator s2 Hthis H1 H2.
    destruct (combine this s1 combinator s2 h) as [r h'] eqn:E.
    destruct (combine_eq h this s1 combinator s2 Hok H1 H2)
      as (o1 & t1 & o2 & t2 & Ho1 & Ht1 & _ & Ho2 & Ht2 & Hok2 & E').
    rewrite E in E'.
    set (h1 := <[s1 := reset o1]> h) in *.
    set (h2 := <[s2 := reset o2]> h1) in *.
    assert (Hlen : length h2 = length h)
      by (unfold h2, h1; now rewrite !length_insert).
    destruct (copyBuilder_appends h2 this
                (t1 +:+ " " +:+ combinator +:+ " " +:+ t2) "" Hok2)
      as (x & code & Hh' & Hp & Hco & Hcode & Hnew); [lia|].
    rewrite <- E' in Hh', Hnew. simpl in Hh', Hnew. subst h'.
    split.
    + intros l Hn1 Hn2 Hsnap.
      assert (Hl : (l < length h)%nat).
      { destruct Hsnap as (o & Ho & _). eapply lookup_lt_Some; eassumption. }
      rewrite state_app by (assumption || lia).
      unfold h2. rewrite state_insert_other; [|auto|].
      * unfold h1. apply state_insert_other; auto.
      * unfold h1. apply snapshot_insert_other; auto.
    + intros new ->. destruct (Hnew new eq_refl) as [-> _]. assumption.
Qed.

Lemma calls_frame_witness :
  let h := (initial ++ [derived self "div" "element" 0])
             ++ [derived self "table" "element" 0] in
  (heap_ok h /\ (1 < length h)%nat)
  /\ (forall l, (l < length h)%nat ->
        snd (append 1%nat Id "main" h) !! l = h !! l
        /\ state (snd (append 1%nat Id "main" h)) l = state h l)
  /\ state (snd (append 1%nat Id "main" h)) 3%nat
     = (Some "div#main", Some "id", Some 1).
Proof.
  intros h.
  assert (Hok : heap_ok h).
  { apply (heap_ok_app _ self); [|vm_compute; lia|reflexivity|reflexivity].
    apply (heap_ok_app initial self);
      [exact heap_ok_initial | vm_compute; lia | reflexivity | reflexivity]. }
  assert (H1 : (1 < length h)%nat) by (vm_compute; lia).
  split; [split; assumption|].
  split; [|reflexivity].
  exact (proj1 (proj1 (calls_frame h Hok) 1%nat Id "main" H1)).
Defined.

(** C3 (as the specification has it) does not hold: [combine] writes the
    snapshots it is given. After element('div') and element('table'),
    combining the two leaves the first, which showed 'div' with last
    category element, with an empty text and no last category. *)
Lemma combine_changes_a_snapshot :
  let h := snd ((a <- element self "div" ;; element self "table") initial) in
  state h 1%nat = (Some "div", Some "element", Some 0)
  /\ fst (combine self 1%nat "+" 2%nat h) = Normal 3%nat
  /\ state (snd (combine self 1%nat "+" 2%nat h)) 1%nat
     = (Some "", Some "", Some (-1))
  /\ state (snd (combine self 1%nat "+" 2%nat h)) 1%nat <> state h 1%nat.
Proof. vm_compute. repeat split; discriminate. Qed.

(** ** Rectangle *)

(** C10. [Rectangle] stores its two arguments as [width] and [height],
    whatever they are, and [getArea] multiplies the two stored values:
    Rectangle(10, 20) has width 10, height 20 and area 200. Nothing is
    checked: a negative side is stored and multiplied like any other. *)
Theorem Rectangle_fields_and_area :
  (forall (number : Type) (mul : number -> number -> number) (w h : number),
     width (Rectangle w h) = w
     /\ height (Rectangle w h) = h
     /\ getArea mul (Rectangle w h) = mul w h)
  /\ width (Rectangle 10 20) = 10
  /\ height (Rectangle 10 20) = 20
  /\ getArea Z.mul (Rectangle 10 20) = 200
  /\ getArea Z.mul (Rectangle (-3) 4) = -12
  /\ width (Rectangle "wide" "tall") = "wide".
Proof.
  split; [intros number mul w h; repeat split|].
  repeat split.
Qed.

(** * getJSON and fromJSON *)

(** ** JSON text read back *)

Lemma unquote_escape (c : ascii) (t : string) :
  unquote (escape c +:+ t)
  = match unquote t with
    | Some (x, rest) => Some (String c x, rest)
    | None => None
    end.
Proof.
  destruct c as [[] [] [] [] [] [] [] []]; reflexivity.
Qed.

Lemma unquote_escaped (s rest : string) :
  unquote (escaped s +:+ String quotation_mark rest) = Some (s, rest).
Proof.
  induction s as [|c s IH]; [reflexivity|].
  cbn [escaped]. rewrite string_app_assoc, unquote_escape. now rewrite IH.
Qed.

Lemma digit_value_char (d : Z) :
  0 <= d <= 9 -> digit_value (digit_char d) = Some d.
Proof.
  intros H.
  assert (d = 0 \/ d = 1 \/ d = 2 \/ d = 3 \/ d = 4 \/ d = 5 \/ d = 6
          \/ d = 7 \/ d = 8 \/ d = 9) as Hd by lia.
  repeat (destruct Hd as [->|Hd]; [reflexivity|]). now subst.
Qed.

Lemma digits_stop (n : Z) (s : string) :
  match s with
  | String c _ => is_digit c = false
  | EmptyString => True
  end ->
  digits n s = (n, s).
Proof.
  destruct s as [|c s]; [reflexivity|]. intros H. simpl.
  unfold digit_value. now rewrite H.
Qed.

(** The digits of a positive number start with a digit other than 0, and
    reading them back gives the number. *)
Lemma decimal_from_digits (fuel : nat) :
  forall n acc,
    1 <= n < 10 ^ Z.of_nat fuel ->
    exists d rest,
      decimal_from fuel n acc = String (digit_char d) rest
      /\ 1 <= d <= 9
      /\ digits d rest = digits n acc.
Proof.
  induction fuel as [|fuel IH]; intros n acc Hn.
  - simpl in Hn. lia.
  - cbn [decimal_from]. destruct (n <? 10) eqn:Hlt.
    + exists n, acc.
      replace (n mod 10) with n by (symmetry; apply Z.mod_small; lia).
      split; [reflexivity|]. split; [lia|reflexivity].
    + assert (Hdiv : 1 <= n / 10 < 10 ^ Z.of_nat fuel).
      { rewrite Nat2Z.inj_succ, Z.pow_succ_r in Hn by lia.
        split.
        - apply Z.div_le_lower_bound; lia.
        - apply Z.div_lt_upper_bound; lia. }
      destruct (IH (n / 10) (String (digit_char (n mod 10)) acc) Hdiv)
        as (d & rest & -> & Hd & Hread).
      exists d, rest. split; [reflexivity|]. split; [assumption|].
      rewrite Hread. cbn [digits].
      rewrite digit_value_char by (pose proof (Z.mod_pos_bound n 10); lia).
      f_equal. pose proof (Z.div_mod n 10). lia.
Qed.

Lemma decimal_from_app (fuel : nat) :
  forall n acc rest,
    decimal_from fuel n acc +:+ rest = decimal_from fuel n (acc +:+ rest).
Proof.
  induction fuel as [|fuel IH]; intros n acc rest; [reflexivity|].
  cbn [decimal_from]. destruct (n <? 10); [reflexivity|].
  now rewrite IH.
Qed.

(** A digit character is one of sixteen characters, none of them the
    minus sign. *)
Lemma digit_char_cases (d : Z) :
  0 <= d <= 9 ->
  exists b0 b1 b2 b3,
    digit_char d = Ascii b0 b1 b2 b3 true true false false.
Proof.
  intros H.
  assert (d = 0 \/ d = 1 \/ d = 2 \/ d = 3 \/ d = 4 \/ d = 5 \/ d = 6
          \/ d = 7 \/ d = 8 \/ d = 9) as Hd by lia.
  repeat (destruct Hd as [->|Hd]; [repeat eexists; reflexivity|]).
  subst. repeat eexists; reflexivity.
Qed.

Lemma unsigned_decimal (n : Z) (rest : string) :
  0 <= n <= MAX_SAFE_INTEGER -> stops_number rest ->
  unsigned (decimal_from 16 n rest) = Some (n, rest)
  /\ exists d r, decimal_from 16 n rest = String (digit_char d) r
                 /\ 0 <= d <= 9.
Proof.
  intros Hn Hrest.
  destruct (decide (n = 0)) as [->|Hne].
  - split; [|exists 0, rest; split; [reflexivity|lia]].
    change (decimal_from 16 0 rest) with (String (digit_char 0) rest).
    unfold unsigned. rewrite digit_value_char by lia.
    destruct rest as [|c rest]; [reflexivity|].
    simpl in Hrest. now rewrite Hrest.
  - destruct (decimal_from_digits 16 n rest) as (d & r & E & Hd & Hread).
    { unfold MAX_SAFE_INTEGER in Hn. split; [lia|].
      change (10 ^ Z.of_nat 16) with 10000000000000000. lia. }
    split; [|exists d, r; split; [assumption|lia]].
    rewrite E. unfold unsigned. rewrite digit_value_char by lia.
    rewrite Hread, (digits_stop n rest Hrest).
    destruct d as [|p|p]; try lia. reflexivity.
Qed.

Lemma number_toString (n : Z) (rest : string) :
  Z.abs n <= MAX_SAFE_INTEGER -> stops_number rest ->
  number (Number_toString n +:+ rest) = Some (VNum n, rest).
Proof.
  intros Hn Hrest. unfold Number_toString.
  destruct (n <? 0) eqn:Hneg.
  - change (String "-" (decimal_from 16 (- n) "") +:+ rest)
      with (String "-" (decimal_from 16 (- n) "" +:+ rest)).
    rewrite decimal_from_app. change ("" +:+ rest) with rest.
    cbn [number].
    destruct (unsigned_decimal (- n) rest) as [-> _]; [lia|assumption|].
    replace (- n =? 0) with false by lia.
    replace (MAX_SAFE_INTEGER <? - n) with false by lia.
    simpl. now rewrite Z.opp_involutive.
  - rewrite decimal_from_app. change ("" +:+ rest) with rest.
    destruct (unsigned_decimal n rest) as [Hu (d & r & E & Hd)];
      [lia|assumption|].
    rewrite E in Hu |- *. unfold number.
    destruct (digit_char_cases d Hd) as (b0 & b1 & b2 & b3 & Hchar).
    rewrite Hchar in Hu |- *. rewrite Hu.
    replace (MAX_SAFE_INTEGER <? n) with false by lia.
    now destruct b0, b1, b2, b3.
Qed.

Lemma after_member_stops (rest : string) :
  after_member rest -> stops_number rest.
Proof. intros (r & [-> | ->]); reflexivity. Qed.

Lemma after_member_skip (rest : string) :
  after_member rest -> skip_ws rest = rest.
Proof. intros (r & [-> | ->]); reflexivity. Qed.

(** The text of a value starts the value: no white space is skipped
    before it, and reading it back gives the value. *)
Lemma parse_value_text (v : value) (t rest : string) :
  SerializeJSONProperty v = Some t -> after_member rest ->
  skip_ws (t +:+ rest) = t +:+ rest
  /\ parse_value (t +:+ rest) = Some (v, rest).
Proof.
  intros Hser Hrest.
  destruct v as [| |[]|n|s]; simpl in Hser; try discriminate Hser.
  - injection Hser as <-. split; reflexivity.
  - injection Hser as <-. split; reflexivity.
  - injection Hser as <-. split; reflexivity.
  - destruct (Z.abs n <=? MAX_SAFE_INTEGER) eqn:Hsafe; [|discriminate Hser].
    injection Hser as <-.
    assert (Hn : Z.abs n <= MAX_SAFE_INTEGER) by lia.
    split.
    + unfold Number_toString. destruct (n <? 0) eqn:Hneg; [reflexivity|].
      rewrite decimal_from_app. change ("" +:+ rest) with rest.
      destruct (unsigned_decimal n rest) as [_ (d & r & -> & Hd)];
        [lia | now apply after_member_stops |].
      destruct (digit_char_cases d Hd) as (b0 & b1 & b2 & b3 & ->).
      now destruct b0, b1, b2, b3.
    + unfold parse_value.
      now rewrite number_toString by (auto using after_member_stops).
  - injection Hser as <-. split; [reflexivity|].
    unfold QuoteJSONString.
    change (String quotation_mark (escaped s +:+ String quotation_mark "")
            +:+ rest)
      with (String quotation_mark
              ((escaped s +:+ String quotation_mark "") +:+ rest)).
    rewrite string_app_assoc.
    change (String quotation_mark "" +:+ rest)
      with (String quotation_mark rest).
    unfold parse_value. cbn [number unsigned].
    change (digit_value quotation_mark) with (@None Z). cbv iota.
    unfold literal_or_string.
    change (Ascii.eqb quotation_mark quotation_mark) with true.
    cbv iota. cbn [quotation_mark]. cbv iota.
    now rewrite unquote_escaped.
Qed.

Lemma member_text_shape (k : string) (v : value) (tm : string) :
  member_text (k, v) = Some tm ->
  exists t,
    SerializeJSONProperty v = Some t
    /\ forall rest,
         tm +:+ rest
         = String quotation_mark
             (escaped k +:+ String quotation_mark (String ":" (t +:+ rest))).
Proof.
  unfold member_text. simpl fst. simpl snd.
  destruct (SerializeJSONProperty v) as [t|]; [|discriminate].
  intros H. injection H as <-. exists t. split; [reflexivity|].
  intros rest. unfold QuoteJSONString.
  rewrite string_app_assoc.
  change (String quotation_mark (escaped k +:+ String quotation_mark "")
          +:+ (String ":" t +:+ rest))
    with (String quotation_mark
            ((escaped k +:+ String quotation_mark "")
             +:+ (String ":" t +:+ rest))).
  now rewrite string_app_assoc.
Qed.

(** One member read by [parse_members]. *)
Lemma parse_members_step (fuel : nat) (k : string) (v : value)
    (t rest : string) :
  SerializeJSONProperty v = Some t -> after_member rest ->
  parse_members (S fuel)
    (String quotation_mark
       (escaped k +:+ String quotation_mark (String ":" (t +:+ rest))))
  = match rest with
    | String "," s5 =>
        match parse_members fuel (skip_ws s5) with
        | Some ms => Some ((k, v) :: ms)
        | None => None
        end
    | String "}" s5 =>
        match skip_ws s5 with
        | EmptyString => Some [(k, v)]
        | String _ _ => None
        end
    | _ => None
    end.
Proof.
  intros Hser Hrest. cbn [parse_members].
  change (Ascii.eqb quotation_mark quotation_mark) with true. cbv iota.
  rewrite unquote_escaped.
  change (skip_ws (String ":" (t +:+ rest))) with (String ":" (t +:+ rest)).
  cbv iota.
  destruct (parse_value_text v t rest Hser Hrest) as [-> ->].
  now rewrite (after_member_skip rest Hrest).
Qed.

Lemma members_text_head (ms : list (string * value)) (ts : string) :
  ms <> [] -> members_text ms = Some ts ->
  exists r, ts = String quotation_mark r.
Proof.
  destruct ms as [|[k v] rest]; [contradiction|]. intros _ H.
  cbn [members_text] in H.
  destruct rest as [|m rest].
  - destruct (member_text_shape k v ts H) as (t & _ & Hshape).
    specialize (Hshape ""). eexists.
    rewrite <- Hshape. clear. induction ts; [reflexivity|].
    change (String a ts +:+ "") with (String a (ts +:+ "")). now f_equal.
  - destruct (member_text (k, v)) as [tm|] eqn:Hm; [|discriminate H].
    destruct (members_text (m :: rest)) as [ts'|]; [|discriminate H].
    injection H as <-.
    destruct (member_text_shape k v tm Hm) as (t & _ & Hshape).
    rewrite Hshape. eauto.
Qed.

(** The members [JSON_stringify] wrote are the members [parse_members]
    reads. *)
Lemma parse_members_text (ms : list (string * value)) :
  forall ts fuel,
    ms <> [] -> members_text ms = Some ts ->
    (length ms <= fuel)%nat ->
    parse_members fuel (ts +:+ "}") = Some ms.
Proof.
  induction ms as [|[k v] rest IH]; intros ts fuel Hne Hts Hfuel;
    [contradiction|].
  destruct fuel as [|fuel]; [simpl in Hfuel; lia|].
  cbn [members_text] in Hts.
  destruct rest as [|m rest].
  - destruct (member_text_shape k v ts Hts) as (t & Hser & Hshape).
    rewrite Hshape.
    rewrite (parse_members_step fuel k v t "}" Hser);
      [reflexivity | exists ""; now right].
  - destruct (member_text (k, v)) as [tm|] eqn:Hm; [|discriminate Hts].
    destruct (members_text (m :: rest)) as [ts'|] eqn:Hrest;
      [|discriminate Hts].
    injection Hts as <-.
    destruct (member_text_shape k v tm Hm) as (t & Hser & Hshape).
    rewrite string_app_assoc, Hshape.
    change (String "," ts' +:+ "}") with (String "," (ts' +:+ "}")).
    rewrite (parse_members_step fuel k v t _ Hser);
      [|exists (ts' +:+ "}"); now left].
    destruct (members_text_head (m :: rest) ts' ltac:(discriminate) Hrest)
      as [r ->].
    change (skip_ws (String quotation_mark r +:+ "}"))
      with (String quotation_mark r +:+ "}").
    rewrite (IH (String quotation_mark r) fuel);
      [reflexivity | discriminate | reflexivity | simpl in *; lia].
Qed.

Lemma string_length_app (a b : string) :
  String.length (a +:+ b) = (String.length a + String.length b)%nat.
Proof.
  induction a as [|c a IH]; [reflexivity|].
  change (String c a +:+ b) with (String c (a +:+ b)). simpl. now rewrite IH.
Qed.

(** A text has at least as many characters as members. *)
Lemma members_text_length (ms : list (string * value)) :
  forall ts,
    members_text ms = Some ts -> (length ms <= String.length ts)%nat.
Proof.
  induction ms as [|[k v] rest IH]; intros ts Hts; [simpl; lia|].
  cbn [members_text] in Hts.
  destruct rest as [|m rest].
  - destruct (members_text_head [(k, v)] ts ltac:(discriminate) Hts)
      as [r ->]. simpl. lia.
  - destruct (member_text (k, v)) as [tm|] eqn:Hm; [|discriminate Hts].
    destruct (members_text (m :: rest)) as [ts'|] eqn:Hrest;
      [|discriminate Hts].
    injection Hts as <-.
    specialize (IH ts' eq_refl).
    rewrite string_length_app. simpl String.length. simpl length in *. lia.
Qed.

Lemma existsb_defined (k : string) (obj : list (string * value)) :
  existsb (String.eqb k) (map fst (defined obj)) = true ->
  existsb (String.eqb k) (map fst obj) = true.
Proof.
  induction obj as [|[k' v] obj IH]; [easy|].
  destruct v; cbn [defined map fst existsb]; intros H;
    try (apply orb_true_iff in H as [H|H];
         apply orb_true_iff; [now left | right; now apply IH]).
  apply orb_true_iff. right. now apply IH.
Qed.

(** Leaving members out keeps a list of properties an object. *)
Lemma well_keyed_defined (obj : list (string * value)) :
  well_keyed obj = true -> well_keyed (defined obj) = true.
Proof.
  unfold well_keyed. intros H. apply andb_prop in H as [Hd Hi].
  apply andb_true_intro. split.
  - clear Hi. induction obj as [|[k v] obj IH]; [reflexivity|].
    cbn [map fst distinct] in Hd. apply andb_prop in Hd as [Hk Hd].
    specialize (IH Hd).
    destruct v; cbn [defined map fst distinct]; try assumption;
      (apply andb_true_intro; split; [|assumption]);
      destruct (existsb (String.eqb k) (map fst (defined obj))) eqn:He;
      try reflexivity;
      apply existsb_defined in He; rewrite He in Hk; discriminate Hk.
  - clear Hd. induction obj as [|[k v] obj IH]; [reflexivity|].
    cbn [map fst forallb] in Hi. apply andb_prop in Hi as [Hk Hi].
    specialize (IH Hi).
    destruct v; cbn [defined map fst forallb]; try assumption;
      now rewrite Hk.
Qed.

Lemma members_text_defined (obj : list (string * value)) :
  Forall representable (map snd obj) ->
  exists ts, members_text (defined obj) = Some ts.
Proof.
  induction obj as [|[k v] obj IH]; intros Hall; [now exists ""|].
  cbn [map snd] in Hall. apply Forall_cons in Hall as [Hv Hall].
  destruct (IH Hall) as [ts Hts].
  assert (Hm : v <> VUndefined -> exists tm, member_text (k, v) = Some tm).
  { intros Hdef. unfold member_text. simpl snd. simpl fst.
    destruct v as [| |[]|n|s]; simpl; eauto; [contradiction|].
    simpl in Hv. replace (Z.abs n <=? MAX_SAFE_INTEGER) with true by lia.
    eauto. }
  destruct v; cbn [defined]; eauto;
    (destruct Hm as [tm Htm]; [discriminate|]);
    cbn [members_text]; rewrite Htm;
    (destruct (defined obj) as [|m rest] eqn:Hd; [eauto|]);
    rewrite Hts; eauto.
Qed.

(** The text [JSON_stringify] gives for an object is read back by
    [JSON_parse] as the object without its undefined members. *)
Lemma parse_stringify (obj : list (string * value)) :
  well_keyed obj = true -> Forall representable (map snd obj) ->
  exists text,
    JSON_stringify obj = Some text
    /\ JSON_parse text = Some (defined obj).
Proof.
  intros Hkeys Hrep.
  destruct (members_text_defined obj Hrep) as [ts Hts].
  unfold JSON_stringify. rewrite Hkeys, Hts.
  eexists. split; [reflexivity|].
  unfold JSON_parse.
  change (skip_ws (String "{" (ts +:+ "}"))) with (String "{" (ts +:+ "}")).
  cbv iota.
  destruct (defined obj) as [|m rest] eqn:Hd.
  - injection Hts as <-. reflexivity.
  - destruct (members_text_head (m :: rest) ts ltac:(discriminate) Hts)
      as [r ->].
    change (skip_ws (String quotation_mark r +:+ "}"))
      with (String quotation_mark r +:+ "}").
    change (String quotation_mark r +:+ "}")
      with (String quotation_mark (r +:+ "}")) at 1.
    cbv iota. cbn [quotation_mark]. cbv iota.
    change (String "034" (r +:+ "}")) with (String quotation_mark r +:+ "}").
    rewrite (parse_members_text (m :: rest) (String quotation_mark r));
      [|discriminate|assumption|].
    + rewrite <- Hd. now rewrite well_keyed_defined.
    + pose proof (members_text_length (m :: rest) _ Hts) as Hlen.
      change (String.length (String "{" (String quotation_mark r +:+ "}")))
        with (S (String.length (String quotation_mark r +:+ "}"))).
      rewrite string_length_app. lia.
Qed.

(** ** The round trip *)










(** * Further properties of the builder *)

(** ** Which chains are accepted *)

Lemma snapshot_derived (h : heap) this code selector order :
  snapshot (h ++ [derived this code selector order]) (length h).
Proof.
  exists (derived this code selector order).
  split; [now apply list_lookup_middle|]. simpl. eauto.
Qed.

(** A valid chain, with the store it leaves and the state of its result. *)
Lemma chain_valid_state (calls : list (category * string)) :
  forall (h : heap) this prev code,
    heap_ok h -> (this < length h)%nat ->
    state h this = (Some code, Some (last_name prev), Some (last_rank prev)) ->
    valid_after prev calls = true ->
    exists l ext,
      chain this calls h = (Normal l, h ++ ext)
      /\ heap_ok (h ++ ext) /\ (l < length (h ++ ext))%nat
      /\ state (h ++ ext) l
         = (Some (code +:+ fragments calls),
            Some (last_name (last_category prev calls)),
            Some (last_rank (last_category prev calls)))
      /\ (calls = [] /\ l = this /\ ext = []
          \/ (length h <= l)%nat /\ snapshot (h ++ ext) l).
Proof.
  induction calls as [|[c v] rest IH];
    intros h this prev code Hok Hthis Hstate Hvalid.
  - exists this, []. rewrite app_nil_r. simpl. rewrite string_app_nil_r.
    split; [reflexivity|]. split; [assumption|]. split; [assumption|].
    split; [assumption|]. left. auto.
  - simpl in Hvalid. apply andb_prop in Hvalid as [Hfollows Hrest].
    rewrite chain_cons.
    rewrite (append_accepts h this prev c v code Hok Hthis Hstate Hfollows).
    set (x := derived this (code +:+ fragment c v) (name c) (rank c)).
    assert (Hok1 : heap_ok (h ++ [x])) by now apply (heap_ok_app h this).
    assert (Hlen1 : length (h ++ [x]) = S (length h))
      by (rewrite length_app; simpl; lia).
    destruct (IH (h ++ [x]) (length h) (Some c) (code +:+ fragment c v))
      as (l & ext & Hrun & Hok' & Hl & Hst & Hcase);
      [assumption | lia | apply state_derived | assumption |].
    exists l, ([x] ++ ext). rewrite app_assoc.
    split; [assumption|]. split; [assumption|]. split; [assumption|].
    split.
    + rewrite Hst. simpl fragments. simpl last_category.
      now rewrite string_app_assoc.
    + right. destruct Hcase as [(-> & -> & ->)|[Hge Hsnap]].
      * split; [lia|]. rewrite app_nil_r. apply snapshot_derived.
      * split; [lia|assumption].
Qed.

(** A call that may not follow the receiver's last category throws: the
    duplicate message when it repeats that category, the ordering message
    otherwise. *)
Lemma append_rejects (h : heap) this p c v code :
  heap_ok h -> (this < length h)%nat ->
  state h this
  = (Some code, Some (last_name (Some p)), Some (last_rank (Some p))) ->
  may_follow p c = false ->
  fst (append this c v h)
  = Throw (if rank p =? rank c then duplicate_message else order_message).
Proof.
  intros Hok Hthis Hstate Hno.
  rewrite (append_eq h this (Some p) c v code Hok Hthis Hstate).
  unfold may_follow in Hno.
  destruct (rank p =? rank c) eqn:Heq, (singleton c),
    (rank c <? rank p) eqn:Hlt, (rank p <? rank c) eqn:Hlt';
    simpl in *; try reflexivity; try discriminate; lia.
Qed.

Lemma chain_invalid (calls : list (category * string)) :
  forall (h : heap) this prev code,
    heap_ok h -> (this < length h)%nat ->
    state h this = (Some code, Some (last_name prev), Some (last_rank prev)) ->
    valid_after prev calls = false ->
    fst (chain this calls h) = Throw duplicate_message
    \/ fst (chain this calls h) = Throw order_message.
Proof.
  induction calls as [|[c v] rest IH];
    intros h this prev code Hok Hthis Hstate Hinvalid; [discriminate|].
  simpl in Hinvalid. rewrite chain_cons.
  destruct (follows prev c) eqn:Hfollows.
  - simpl in Hinvalid.
    rewrite (append_accepts h this prev c v code Hok Hthis Hstate Hfollows).
    apply (IH _ _ (Some c) (code +:+ fragment c v)).
    + now apply (heap_ok_app h this).
    + rewrite length_app. simpl. lia.
    + apply state_derived.
    + assumption.
  - destruct prev as [p|]; [|discriminate].
    pose proof (append_rejects h this p c v code Hok Hthis Hstate Hfollows)
      as Hthrow.
    destruct (append this c v h) as [r h']. simpl in Hthrow. subst r.
    simpl. destruct (rank p =? rank c); auto.
Qed.

(** X1. A chain of calls made on an object is accepted exactly when its
    category sequence may follow the object's last category: ranks never
    decrease and element, id and pseudo-element are not repeated back to
    back. An accepted chain returns an object whose text is the receiver's
    text followed by the fragments in call order; a chain that is not
    accepted throws one of the two messages. *)
Theorem chain_accepted_iff_valid (h : heap) this prev code calls :
  heap_ok h -> (this < length h)%nat ->
  state h this = (Some code, Some (last_name prev), Some (last_rank prev)) ->
  ((exists l, fst (chain this calls h) = Normal l)
   <-> valid_after prev calls = true)
  /\ (valid_after prev calls = true ->
      exists l h',
        chain this calls h = (Normal l, h')
        /\ fst (stringify l h') = Normal (code +:+ fragments calls))
  /\ (valid_after prev calls = false ->
      fst (chain this calls h) = Throw duplicate_message
      \/ fst (chain this calls h) = Throw order_message).
Proof.
  intros Hok Hthis Hstate.
  assert (Hyes : valid_after prev calls = true ->
            exists l h',
              chain this calls h = (Normal l, h')
              /\ fst (stringify l h') = Normal (code +:+ fragments calls)).
  { intros Hvalid.
    destruct (chain_valid_state calls h this prev code Hok Hthis Hstate Hvalid)
      as (l & ext & Hrun & Hok' & Hl & Hst & _).
    exists l, (h ++ ext). split; [assumption|].
    unfold state in Hst. injection Hst as Hcode _ _.
    destruct (stringify_returns (h ++ ext) l _ Hl Hcode) as (o & _ & ->).
    reflexivity. }
  split; [|split; [assumption|]].
  - split.
    + intros [l Hl]. destruct (valid_after prev calls) eqn:Hv; [reflexivity|].
      destruct (chain_invalid calls h this prev code Hok Hthis Hstate Hv)
        as [H|H]; rewrite H in Hl; discriminate.
    + intros Hvalid. destruct (Hyes Hvalid) as (l & h' & -> & _). eauto.
  - intros Hv.
    exact (chain_invalid calls h this prev code Hok Hthis Hstate Hv).
Qed.

Lemma chain_accepted_iff_valid_witness :
  let h := initial ++ [derived self "div" "element" 0] in
  let calls := [(Class, "a"); (Class, "b"); (PseudoElement, "after")] in
  (heap_ok h /\ (1 < length h)%nat
   /\ state h 1%nat
      = (Some "div", Some (last_name (Some Element)),
         Some (last_rank (Some Element)))
   /\ valid_after (Some Element) calls = true)
  /\ exists l h',
       chain 1%nat calls h = (Normal l, h')
       /\ fst (stringify l h') = Normal "div.a.b::after".
Proof.
  intros h calls.
  assert (Hok : heap_ok h)
    by (apply (heap_ok_app initial self);
        [exact heap_ok_initial | vm_compute; lia | reflexivity | reflexivity]).
  assert (Hlt : (1 < length h)%nat) by (vm_compute; lia).
  split.
  { split; [exact Hok|]. split; [exact Hlt|]. split; reflexivity. }
  exact (proj1 (proj2 (chain_accepted_iff_valid h 1%nat (Some Element) "div"
                         calls Hok Hlt eq_refl)) eq_refl).
Defined.

Lemma chain_app (pre post : list (category * string)) :
  forall (h : heap) this,
    chain this (pre ++ post) h
    = bind (chain this pre) (fun l => chain l post) h.
Proof.
  induction pre as [|[c v] pre IH]; intros h this; [reflexivity|].
  rewrite <- app_comm_cons, !chain_cons. unfold bind at 1.
  rewrite chain_cons.
  destruct (append this c v h) as [[next|msg|] h']; try reflexivity.
  rewrite IH. reflexivity.
Qed.

(** X2. A chain fails at its first call that may not follow the category
    appended before it, whatever comes after that call: with the duplicate
    message when the call repeats that category (element, id or
    pseudo-element twice in a row), with the ordering message when its rank
    is smaller. *)
Theorem chain_fails_at_first_offender (h : heap) this prev code
    (pre post : list (category * string)) p c v :
  heap_ok h -> (this < length h)%nat ->
  state h this = (Some code, Some (last_name prev), Some (last_rank prev)) ->
  valid_after prev pre = true ->
  last_category prev pre = Some p ->
  may_follow p c = false ->
  fst (chain this (pre ++ (c, v) :: post) h)
  = Throw (if decide (c = p) then duplicate_message else order_message)
  /\ (c = p -> singleton c = true)
  /\ (c <> p -> rank c < rank p).
Proof.
  intros Hok Hthis Hstate Hvalid Hlast Hno.
  destruct (chain_valid_state pre h this prev code Hok Hthis Hstate Hvalid)
    as (l & ext & Hrun & Hok' & Hl & Hst & _).
  rewrite Hlast in Hst.
  split; [|split].
  - rewrite chain_app. rewrite (bind_eq _ _ _ _ _ Hrun). rewrite chain_cons.
    pose proof (append_rejects (h ++ ext) l p c v _ Hok' Hl Hst Hno) as Hthrow.
    destruct (append l c v (h ++ ext)) as [r h']. simpl in Hthrow. subst r.
    simpl. f_equal.
    destruct (decide (c = p)) as [->|Hne].
    + now rewrite Z.eqb_refl.
    + destruct (rank p =? rank c) eqn:Heq; [|reflexivity].
      exfalso. apply Hne. destruct c, p; simpl in Heq; try reflexivity;
        discriminate Heq.
  - intros ->. unfold may_follow in Hno.
    rewrite Z.ltb_irrefl, Z.eqb_refl in Hno. simpl in Hno.
    now destruct (singleton p).
  - intros Hne. unfold may_follow in Hno.
    destruct (rank p <? rank c) eqn:Hlt; [discriminate|].
    assert (rank p <> rank c)
      by (intros Heq; apply Hne; destruct c, p; simpl in Heq;
          try reflexivity; discriminate Heq).
    lia.
Qed.

Lemma chain_fails_at_first_offender_witness :
  let pre := [(Element, "div"); (Class, "a")] in
  (heap_ok initial /\ (self < length initial)%nat
   /\ state initial self
      = (Some "", Some (last_name None), Some (last_rank None))
   /\ valid_after None pre = true
   /\ last_category None pre = Some Class
   /\ may_follow Class Id = false)
  /\ fst (chain self (pre ++ (Id, "x") :: [(Attr, "href")]) initial)
     = Throw order_message.
Proof.
  intros pre.
  assert (Hlt : (self < length initial)%nat) by (vm_compute; lia).
  split.
  { split; [exact heap_ok_initial|]. split; [exact Hlt|].
    repeat (split; [reflexivity|]). reflexivity. }
  exact (proj1 (chain_fails_at_first_offender initial self None ""
                  pre [(Attr, "href")] Class Id "x"
                  heap_ok_initial Hlt eq_refl eq_refl eq_refl eq_refl)).
Defined.

(** ** The shape of an accepted chain *)

Lemma rank_injective (c d : category) : rank c = rank d -> c = d.
Proof. destruct c, d; simpl; intros H; try reflexivity; discriminate H. Qed.

Lemma valid_after_bounds (calls : list (category * string)) :
  forall p,
    valid_after (Some p) calls = true ->
    Forall (fun cv => rank p <= rank (fst cv)
                      /\ (fst cv = p -> singleton p = false)) calls.
Proof.
  induction calls as [|[c v] rest IH]; intros p Hvalid; [constructor|].
  simpl in Hvalid. apply andb_prop in Hvalid as [Hfollows Hrest].
  unfold may_follow in Hfollows.
  assert (Hle : rank p <= rank c).
  { destruct (rank p <? rank c) eqn:Hlt; [lia|].
    destruct (rank p =? rank c) eqn:Heq; [lia|discriminate]. }
  assert (Hsame : c = p -> singleton p = false).
  { intros ->. rewrite Z.ltb_irrefl in Hfollows. simpl in Hfollows.
    apply andb_prop in Hfollows as [_ Hs]. now destruct (singleton p). }
  constructor; [split; assumption|].
  specialize (IH c Hrest).
  eapply Forall_impl; [exact IH|].
  intros [d w] [Hcd Hd]. simpl in *. split; [lia|].
  intros ->. apply Hsame. apply rank_injective. lia.
Qed.

Lemma valid_after_weaken (calls : list (category * string)) prev :
  valid_after prev calls = true -> valid_after None calls = true.
Proof.
  destruct calls as [|[c v] rest]; [reflexivity|].
  simpl. intros H. apply andb_prop in H as [_ ->]. reflexivity.
Qed.

Lemma valid_after_once (calls : list (category * string)) :
  forall prev c,
    valid_after prev calls = true -> singleton c = true ->
    (count_occ category_eq_dec (map fst calls) c <= 1)%nat.
Proof.
  induction calls as [|[d v] rest IH]; intros prev c Hvalid Hs; [simpl; lia|].
  simpl in Hvalid. apply andb_prop in Hvalid as [_ Hrest].
  simpl map. destruct (decide (d = c)) as [->|Hne].
  - rewrite count_occ_cons_eq by reflexivity.
    pose proof (valid_after_bounds rest c Hrest) as Hb.
    assert (H0 : count_occ category_eq_dec (map fst rest) c = 0%nat).
    { apply count_occ_not_In. intros Hin.
      apply in_map_iff in Hin as ([d w] & Hd & Hin). simpl in Hd. subst d.
      rewrite Forall_forall in Hb. apply list_elem_of_In in Hin.
      destruct (Hb _ Hin) as [_ Hfalse]. simpl in Hfalse.
      rewrite Hfalse in Hs by reflexivity. discriminate. }
    lia.
  - rewrite count_occ_cons_neq by assumption. now apply (IH (Some d)).
Qed.

Lemma valid_after_sorted (calls : list (category * string)) :
  forall prev,
    valid_after prev calls = true ->
    StronglySorted Z.le (map (fun cv => rank (fst cv)) calls).
Proof.
  induction calls as [|[c v] rest IH]; intros prev Hvalid; [constructor|].
  simpl in Hvalid. apply andb_prop in Hvalid as [_ Hrest].
  simpl. constructor; [now apply (IH (Some c))|].
  apply Forall_map.
  eapply Forall_impl; [exact (valid_after_bounds rest c Hrest)|].
  intros [d w] [Hle _]. exact Hle.
Qed.

(** X3. Whenever a chain started on the entry point returns, its category
    sequence has non-decreasing ranks and holds element, id and
    pseudo-element at most once each: no selector the builder accepts
    repeats one of them, adjacent or not. *)
Theorem accepted_chain_shape (h : heap) calls l :
  heap_ok h ->
  fst (chain self calls h) = Normal l ->
  StronglySorted Z.le (map (fun cv => rank (fst cv)) calls)
  /\ (count_occ category_eq_dec (map fst calls) Element <= 1)%nat
  /\ (count_occ category_eq_dec (map fst calls) Id <= 1)%nat
  /\ (count_occ category_eq_dec (map fst calls) PseudoElement <= 1)%nat.
Proof.
  intros Hok Hrun.
  assert (Hvalid : valid_after None calls = true).
  { destruct (valid_after None calls) eqn:Hv; [reflexivity|].
    destruct (chain_invalid calls h self None "" Hok (self_allocated h Hok)
                (state_self h Hok) Hv) as [H|H];
      rewrite H in Hrun; discriminate. }
  split; [now apply (valid_after_sorted calls None)|].
  repeat split; now apply (valid_after_once calls None).
Qed.

Lemma accepted_chain_shape_witness :
  let calls := [(Element, "a"); (Class, "x"); (Class, "y");
                (PseudoElement, "before")] in
  (heap_ok initial /\ fst (chain self calls initial) = Normal 4%nat)
  /\ StronglySorted Z.le (map (fun cv => rank (fst cv)) calls)
  /\ (count_occ category_eq_dec (map fst calls) Element <= 1)%nat
  /\ (count_occ category_eq_dec (map fst calls) Id <= 1)%nat
  /\ (count_occ category_eq_dec (map fst calls) PseudoElement <= 1)%nat.
Proof.
  intros calls.
  split; [split; [exact heap_ok_initial | reflexivity]|].
  exact (accepted_chain_shape initial calls 4%nat heap_ok_initial eq_refl).
Defined.

(** ** Using an object again *)

(** X5. After [stringify] an object is as good as the entry point: a
    second [stringify] on it returns the empty string, and a call of any
    category on it is accepted, whatever was appended before, and starts a
    selector that holds the new fragment only. *)
Theorem stringify_then_reuse (h : heap) this :
  heap_ok h -> (this < length h)%nat ->
  let h1 := snd (stringify this h) in
  fst (stringify this h1) = Normal ""
  /\ forall c v,
       exists l h2,
         append this c v h1 = (Normal l, h2)
         /\ fst (stringify l h2) = Normal (fragment c v).
Proof.
  intros Hok Hlt.
  destruct (read_total cssCode h this Hok) as [code Hcode]; [simpl; eauto|lia|].
  destruct (stringify_returns h this code Hlt Hcode) as (o & Ho & ->).
  cbv zeta. simpl snd.
  pose proof (heap_ok_reset h this o Hok Ho) as Hok1.
  pose proof (state_reset h this o Ho) as Hst.
  set (h1 := <[this := reset o]> h) in *.
  assert (Hlt1 : (this < length h1)%nat)
    by (unfold h1; now rewrite length_insert).
  split.
  - destruct (stringify_returns h1 this "" Hlt1) as (o' & _ & ->);
      [|reflexivity].
    unfold state, cleared in Hst. now injection Hst as -> _ _.
  - intros c v.
    pose proof (append_accepts h1 this None c v "" Hok1 Hlt1 Hst eq_refl)
      as Happ.
    eexists _, _. split; [exact Happ|].
    pose proof (state_derived h1 this ("" +:+ fragment c v) (name c) (rank c))
      as Hd.
    destruct (stringify_returns
                (h1 ++ [derived this ("" +:+ fragment c v) (name c) (rank c)])
                (length h1) (fragment c v)) as (o' & _ & ->);
      [rewrite length_app; simpl; lia | | reflexivity].
    unfold state in Hd. now injection Hd as -> _ _.
Qed.

Lemma stringify_then_reuse_witness :
  let h := initial ++ [derived self ".a" "class" 2] in
  (heap_ok h /\ (1 < length h)%nat)
  /\ fst (stringify 1%nat (snd (stringify 1%nat h))) = Normal ""
  /\ exists l h2,
       append 1%nat Id "b" (snd (stringify 1%nat h)) = (Normal l, h2)
       /\ fst (stringify l h2) = Normal "#b".
Proof.
  intros h.
  assert (Hok : heap_ok h)
    by (apply (heap_ok_app initial self);
        [exact heap_ok_initial | vm_compute; lia | reflexivity | reflexivity]).
  assert (Hlt : (1 < length h)%nat) by (vm_compute; lia).
  split; [split; assumption|].
  split.
  - exact (proj1 (stringify_then_reuse h 1%nat Hok Hlt)).
  - exact (proj2 (stringify_then_reuse h 1%nat Hok Hlt) Id "b").
Defined.

(** ** combine on other receivers and arguments *)

Lemma indexOf_empty : indexOf order_array "" = -1.
Proof. reflexivity. Qed.

Lemma repeats_last_empty (last : string) : repeats_last "" last = false.
Proof. reflexivity. Qed.

(** X4. [combine] called on a snapshot that has a last category, other
    than its two arguments, throws the ordering message: the combined
    fragment has no place in the order (index -1), which is below every
    category. Called on a snapshot that shows no category (order -1) it
    returns a new object whose text is the receiver's text followed by the
    combined fragment. *)
Theorem combine_on_snapshot (h : heap) this s1 combinator s2 code lo :
  heap_ok h ->
  (this < length h)%nat -> (s1 < length h)%nat -> (s2 < length h)%nat ->
  this <> s1 -> this <> s2 -> snapshot h this ->
  read cssCode h this = Some code ->
  read lastOrder h this = Some lo ->
  (0 <= lo -> fst (combine this s1 combinator s2 h) = Throw order_message)
  /\ (lo = -1 ->
      exists t1 t2 h',
        fst (stringify s1 h) = Normal t1
        /\ fst (stringify s2 (snd (stringify s1 h))) = Normal t2
        /\ combine this s1 combinator s2 h = (Normal (length h), h')
        /\ fst (stringify (length h) h')
           = Normal (code +:+ t1 +:+ " " +:+ combinator +:+ " " +:+ t2)).
Proof.
  intros Hok Hthis H1 H2 Hn1 Hn2 Hsnap Hcode Hlo.
  destruct (combine_eq h this s1 combinator s2 Hok H1 H2)
    as (o1 & t1 & o2 & t2 & Ho1 & Ht1 & E1 & Ho2 & Ht2 & Hok2 & E).
  set (h1 := <[s1 := reset o1]> h) in *.
  set (h2 := <[s2 := reset o2]> h1) in *.
  set (text := t1 +:+ " " +:+ combinator +:+ " " +:+ t2) in *.
  assert (Hlen : length h2 = length h)
    by (unfold h2, h1; now rewrite !length_insert).
  assert (Hst : state h2 this = state h this).
  { unfold h2. rewrite state_insert_other; [|auto|].
    - unfold h1. apply state_insert_other; auto.
    - unfold h1. apply snapshot_insert_other; auto. }
  destruct (state_total h this Hok Hthis) as (code' & last & lo' & Hst').
  assert (code' = code /\ lo' = lo) as [-> ->].
  { unfold state in Hst'. rewrite Hcode, Hlo in Hst'.
    now injection Hst' as -> _ ->. }
  rewrite Hst' in Hst.
  assert (Hthis2 : (this < length h2)%nat) by lia.
  pose proof (copyBuilder_eq h2 this text "" code last lo Hok2 Hthis2 Hst)
    as Ecopy.
  rewrite repeats_last_empty in Ecopy. unfold below_last in Ecopy.
  rewrite indexOf_empty in Ecopy.
  split.
  - intros Hge. rewrite E, Ecopy.
    replace (lo =? -1) with false by lia.
    replace (-1 <? lo) with true by lia. reflexivity.
  - intros ->. simpl in Ecopy. exists t1, t2.
    eexists. split; [now rewrite E1|].
    split; [rewrite E1; simpl; fold h1;
            now rewrite (stringify_eq h1 s2 o2 t2 Ho2 Ht2)|].
    rewrite E, Ecopy, Hlen. split; [reflexivity|].
    pose proof (state_derived h2 this (code +:+ text) "" (-1)) as Hd.
    rewrite Hlen in Hd.
    destruct (stringify_returns (h2 ++ [derived this (code +:+ text) "" (-1)])
                (length h) (code +:+ text)) as (o & _ & ->);
      [rewrite length_app; simpl; lia | | reflexivity].
    unfold state in Hd. now injection Hd as -> _ _.
Qed.

Lemma combine_on_snapshot_witness :
  let h := ((initial ++ [derived self "div" "element" 0])
              ++ [derived self "table" "element" 0])
             ++ [derived self "#main" "id" 1] in
  (heap_ok h /\ (3 < length h)%nat /\ (1 < length h)%nat
   /\ (2 < length h)%nat /\ 3%nat <> 1%nat /\ 3%nat <> 2%nat
   /\ snapshot h 3%nat /\ read cssCode h 3%nat = Some "#main"
   /\ read lastOrder h 3%nat = Some 1 /\ 0 <= 1)
  /\ fst (combine 3%nat 1%nat "+" 2%nat h) = Throw order_message.
Proof.
  intros h.
  assert (Hok : heap_ok h).
  { apply (heap_ok_app _ self); [|vm_compute; lia|reflexivity|reflexivity].
    apply (heap_ok_app _ self); [|vm_compute; lia|reflexivity|reflexivity].
    apply (heap_ok_app initial self);
      [exact heap_ok_initial | vm_compute; lia | reflexivity | reflexivity]. }
  assert (H3 : (3 < length h)%nat) by (vm_compute; lia).
  assert (H1 : (1 < length h)%nat) by (vm_compute; lia).
  assert (H2 : (2 < length h)%nat) by (vm_compute; lia).
  assert (Hsnap : snapshot h 3%nat)
    by (exists (derived self "#main" "id" 1); simpl; eauto 10).
  assert (Hpos : 0 <= 1) by lia.
  split.
  { split; [exact Hok|]. split; [exact H3|]. split; [exact H1|].
    split; [exact H2|]. split; [discriminate|]. split; [discriminate|].
    split; [exact Hsnap|]. split; [reflexivity|]. split; [reflexivity|].
    exact Hpos. }
  exact (proj1 (combine_on_snapshot h 3%nat 1%nat "+" 2%nat "#main" 1
                  Hok H3 H1 H2 ltac:(discriminate) ltac:(discriminate)
                  Hsnap eq_refl eq_refl) Hpos).
Defined.

(** X9. Passing the same object as both arguments of [combine] gives its
    text once only: the first [stringify] has cleared the object when the
    second reads it, so the result is the text, a space, the combinator
    and a space, with nothing after. *)
Theorem combine_same_object (h : heap) s combinator t :
  heap_ok h -> (s < length h)%nat -> read cssCode h s = Some t ->
  exists l h',
    combine self s combinator s h = (Normal l, h')
    /\ fst (stringify l h') = Normal (t +:+ " " +:+ combinator +:+ " ").
Proof.
  intros Hok Hs Ht.
  destruct (combine_eq h self s combinator s Hok Hs Hs)
    as (o1 & t1 & o2 & t2 & Ho1 & Ht1 & _ & Ho2 & Ht2 & Hok2 & E).
  rewrite Ht in Ht1. injection Ht1 as <-.
  pose proof (state_reset h s o1 Ho1) as Hreset.
  unfold state, cleared in Hreset. injection Hreset as Hempty _ _.
  rewrite Hempty in Ht2. injection Ht2 as <-.
  set (h2 := <[s := reset o2]> (<[s := reset o1]> h)) in *.
  set (text := t +:+ " " +:+ combinator +:+ " " +:+ "") in *.
  pose proof (copyBuilder_eq h2 self text "" "" "" (-1) Hok2
                (self_allocated h2 Hok2) (state_self h2 Hok2)) as Ecopy.
  change (copyBuilder self text "" h2
          = (Normal (length h2), h2 ++ [derived self text "" (-1)])) in Ecopy.
  exists (length h2), (h2 ++ [derived self text "" (-1)]).
  split; [now rewrite E|].
  pose proof (state_derived h2 self text "" (-1)) as Hd.
  destruct (stringify_returns (h2 ++ [derived self text "" (-1)])
              (length h2) text) as (o & _ & ->);
    [rewrite length_app; simpl; lia | | ].
  - unfold state in Hd. now injection Hd as -> _ _.
  - reflexivity.
Qed.

Lemma combine_same_object_witness :
  let h := initial ++ [derived self "div" "element" 0] in
  (heap_ok h /\ (1 < length h)%nat /\ read cssCode h 1%nat = Some "div")
  /\ exists l h',
       combine self 1%nat "+" 1%nat h = (Normal l, h')
       /\ fst (stringify l h') = Normal "div + ".
Proof.
  intros h.
  assert (Hok : heap_ok h)
    by (apply (heap_ok_app initial self);
        [exact heap_ok_initial | vm_compute; lia | reflexivity | reflexivity]).
  assert (Hlt : (1 < length h)%nat) by (vm_compute; lia).
  split; [split; [exact Hok | split; [exact Hlt | reflexivity]]|].
  exact (combine_same_object h 1%nat "+" "div" Hok Hlt eq_refl).
Defined.

(** ** Nested combine *)

(** Writing an object that is the entry point or lies beyond a prefix of
    the store leaves the prefix as it is. *)
Lemma insert_reset_beyond (h ext : heap) l o :
  heap_ok h -> (h ++ ext) !! l = Some o ->
  l = self \/ (length h <= l)%nat ->
  exists ext', <[l := reset o]> (h ++ ext) = h ++ ext'.
Proof.
  intros Hok Ho [->|Hge].
  - exists ext. apply list_insert_id.
    destruct Hok as [Hbase _].
    rewrite lookup_app_l in Ho by (eapply lookup_lt_Some; eassumption).
    rewrite Hbase in Ho. injection Ho as <-.
    rewrite lookup_app_l by (eapply lookup_lt_Some; eassumption).
    exact Hbase.
  - exists (<[(l - length h)%nat := reset o]> ext).
    now apply insert_app_r_alt.
Qed.

(** A well-formed selector expression evaluates to an object that shows
    its text, and the evaluation leaves the store it started from as a
    prefix of the store it ends with. *)
Lemma build_ok (e : selector) :
  forall (h : heap),
    heap_ok h -> well_formed e = true ->
    exists l ext,
      build e h = (Normal l, h ++ ext)
      /\ heap_ok (h ++ ext) /\ (l < length (h ++ ext))%nat
      /\ read cssCode (h ++ ext) l = Some (text e)
      /\ snapshot (h ++ ext) l
      /\ (l = self /\ text e = "" \/ (length h <= l)%nat).
Proof.
  induction e as [calls|e1 IH1 combinator e2 IH2]; intros h Hok Hwf.
  - simpl in Hwf.
    destruct (chain_valid_state calls h self None "" Hok (self_allocated h Hok)
                (state_self h Hok) Hwf)
      as (l & ext & Hrun & Hok' & Hl & Hst & Hcase).
    exists l, ext. split; [exact Hrun|]. split; [assumption|].
    split; [assumption|].
    unfold state in Hst. injection Hst as Hcode _ _.
    split; [exact Hcode|].
    destruct Hcase as [(-> & -> & ->)|[Hge Hsnap]].
    + split; [now apply snapshot_self|]. left. split; reflexivity.
    + split; [assumption|]. right. assumption.
  - simpl in Hwf. apply andb_prop in Hwf as [Hwf1 Hwf2].
    destruct (IH1 h Hok Hwf1)
      as (l1 & x1 & Hrun1 & Hok1 & Hl1 & Hcode1 & Hsnap1 & Hcase1).
    destruct (IH2 (h ++ x1) Hok1 Hwf2)
      as (l2 & x2 & Hrun2 & Hok2 & Hl2 & Hcode2 & Hsnap2 & Hcase2).
    simpl build.
    rewrite (bind_eq _ _ _ _ _ Hrun1), (bind_eq _ _ _ _ _ Hrun2).
    set (H2 := (h ++ x1) ++ x2) in *.
    assert (Hl1' : (l1 < length H2)%nat)
      by (unfold H2; rewrite length_app; lia).
    destruct (combine_eq H2 self l1 combinator l2 Hok2 Hl1' Hl2)
      as (o1 & t1 & o2 & t2 & Ho1 & Ht1 & _ & Ho2 & Ht2 & Hok' & ->).
    assert (t1 = text e1) as ->.
    { unfold H2 in Ht1. rewrite read_app in Ht1 by assumption.
      rewrite Hcode1 in Ht1. now injection Ht1. }
    assert (t2 = text e2) as ->.
    { destruct (decide (l1 = l2)) as [Heq|Hne].
      - pose proof (state_reset H2 l1 o1 Ho1) as Hreset.
        unfold state, cleared in Hreset. injection Hreset as Hempty _ _.
        rewrite Heq in Hempty at 2. rewrite Hempty in Ht2.
        injection Ht2 as <-.
        destruct Hcase2 as [[_ ->]|Hge]; [reflexivity|lia].
      - pose proof (state_insert_other H2 l1 (reset o1) l2 Hne Hsnap2) as Hs.
        unfold state in Hs. injection Hs as Hs _ _.
        rewrite Hs, Hcode2 in Ht2. now injection Ht2. }
    set (h1' := <[l1 := reset o1]> H2) in *.
    set (h2' := <[l2 := reset o2]> h1') in *.
    set (t := text e1 +:+ " " +:+ combinator +:+ " " +:+ text e2) in *.
    pose proof (copyBuilder_eq h2' self t "" "" "" (-1) Hok'
                  (self_allocated h2' Hok') (state_self h2' Hok')) as Ecopy.
    change (copyBuilder self t "" h2'
            = (Normal (length h2'), h2' ++ [derived self t "" (-1)])) in Ecopy.
    assert (Hpre : exists ext, h2' = h ++ ext).
    { assert (Hc1 : l1 = self \/ (length h <= l1)%nat) by tauto.
      unfold H2 in Ho1. rewrite <- app_assoc in Ho1.
      destruct (insert_reset_beyond h (x1 ++ x2) l1 o1 Hok Ho1 Hc1)
        as [y1 Hy1].
      assert (Hc2 : l2 = self \/ (length h <= l2)%nat).
      { destruct Hcase2 as [[-> _]|Hge]; [now left|right].
        rewrite length_app in Hge. lia. }
      unfold h1', H2 in Ho2. rewrite <- app_assoc, Hy1 in Ho2.
      destruct (insert_reset_beyond h y1 l2 o2 Hok Ho2 Hc2) as [y2 Hy2].
      exists y2. unfold h2', h1', H2. now rewrite <- app_assoc, Hy1. }
    destruct Hpre as [ext Hext].
    exists (length h2'), (ext ++ [derived self t "" (-1)]).
    rewrite app_assoc, <- Hext.
    split; [exact Ecopy|].
    split; [apply (heap_ok_app h2' self);
            [assumption | now apply self_allocated | reflexivity
             | reflexivity]|].
    split; [rewrite length_app; simpl; lia|].
    pose proof (state_derived h2' self t "" (-1)) as Hd.
    unfold state in Hd. injection Hd as Hd _ _.
    split; [exact Hd|].
    split; [apply snapshot_derived|].
    right. rewrite Hext, length_app. lia.
Qed.

(** X6. A selector written as nested calls of [combine] on the entry
    point, over chains that are valid, evaluates without an error, and
    [stringify] on the result gives the texts of the parts joined by their
    combinators, each between two spaces. The example of the source is an
    instance. *)
Theorem nested_combine_text :
  (forall (h : heap) e,
     heap_ok h -> well_formed e = true ->
     exists l h',
       build e h = (Normal l, h')
       /\ fst (stringify l h') = Normal (text e))
  /\ fst ((l <- build
             (Combine
                (Simple [(Element, "div"); (Id, "main");
                         (Class, "container"); (Class, "draggable")])
                "+"
                (Combine
                   (Simple [(Element, "table"); (Id, "data")])
                   "~"
                   (Combine
                      (Simple [(Element, "tr");
                               (PseudoClass, "nth-of-type(even)")])
                      " "
                      (Simple [(Element, "td");
                               (PseudoClass, "nth-of-type(even)")])))) ;;
           stringify l) initial)
     = Normal "div#main.container.draggable + table#data ~ tr:nth-of-type(even)   td:nth-of-type(even)".
Proof.
  split; [|reflexivity].
  intros h e Hok Hwf.
  destruct (build_ok e h Hok Hwf) as (l & ext & Hrun & _ & Hl & Hcode & _).
  exists l, (h ++ ext). split; [assumption|].
  destruct (stringify_returns (h ++ ext) l _ Hl Hcode) as (o & _ & ->).
  reflexivity.
Qed.

Lemma nested_combine_text_witness :
  let e := Combine (Simple [(Element, "ul"); (Class, "menu")]) ">"
             (Combine (Simple [(Element, "li")]) "+"
                (Simple [(Element, "li"); (PseudoClass, "hover")])) in
  (heap_ok initial /\ well_formed e = true)
  /\ exists l h',
       build e initial = (Normal l, h')
       /\ fst (stringify l h') = Normal "ul.menu > li + li:hover".
Proof.
  intros e.
  split; [split; [exact heap_ok_initial | reflexivity]|].
  exact (proj1 nested_combine_text initial e heap_ok_initial eq_refl).
Defined.

(** ** What every reachable store keeps *)

Lemma consistent_app (h : heap) x :
  consistent h -> consistent_object x -> consistent (h ++ [x]).
Proof.
  intros Hc Hx l o Hl.
  destruct (decide (l < length h)%nat) as [Hlt|Hge].
  - rewrite lookup_app_l in Hl by assumption. now apply (Hc l).
  - rewrite lookup_app_r in Hl by lia.
    destruct (l - length h)%nat; [|discriminate Hl].
    simpl in Hl. now injection Hl as <-.
Qed.

Lemma consistent_reset (h : heap) l o :
  consistent h -> consistent (<[l := reset o]> h).
Proof.
  intros Hc k o' Hk.
  destruct (decide (l = k)) as [->|Hne].
  - destruct (decide (k < length h)%nat) as [Hlt|Hge].
    + rewrite list_lookup_insert_eq in Hk by assumption.
      injection Hk as <-. left. exists "", "". simpl. auto.
    + rewrite list_insert_ge in Hk by lia. now apply (Hc k).
  - rewrite list_lookup_insert_ne in Hk by assumption. now apply (Hc k).
Qed.

Lemma consistent_copyBuilder (h : heap) this value selector :
  heap_ok h -> (this < length h)%nat -> consistent h ->
  consistent (snd (copyBuilder this value selector h)).
Proof.
  intros Hok Hlt Hc.
  destruct (state_total h this Hok Hlt) as (code & last & lo & Hstate).
  rewrite (copyBuilder_eq h this value selector code last lo Hok Hlt Hstate).
  destruct (repeats_last selector last);
    [|destruct (below_last order_array selector lo)]; simpl;
    apply consistent_app; try assumption.
  - right. auto.
  - right. auto.
  - left. exists (code +:+ value), selector. auto.
Qed.

Lemma reachable_consistent (h : heap) : reachable h -> consistent h.
Proof.
  induction 1 as [|h this value selector Hr IH Hthis
                  |h this Hr IH Hthis
                  |h this s1 combinator s2 Hr IH Hthis H1 H2].
  - intros [|l] o Hl; [|discriminate Hl].
    injection Hl as <-. left. exists "", "". auto.
  - apply consistent_copyBuilder; [now apply reachable_heap_ok|assumption..].
  - pose proof (reachable_heap_ok h Hr) as Hok.
    destruct (read_total cssCode h this Hok) as [code Hcode];
      [simpl; eauto|lia|].
    destruct (stringify_returns h this code Hthis Hcode) as (o & _ & ->).
    now apply consistent_reset.
  - pose proof (reachable_heap_ok h Hr) as Hok.
    destruct (combine_eq h this s1 combinator s2 Hok H1 H2)
      as (o1 & t1 & o2 & t2 & _ & _ & _ & _ & _ & Hok2 & ->).
    apply consistent_copyBuilder;
      [assumption | now rewrite !length_insert
       | now apply consistent_reset, consistent_reset].
Qed.

Lemma indexOf_range (selector : string) :
  -1 <= indexOf order_array selector <= 5.
Proof.
  unfold indexOf, order_array. cbn [indexOf_from].
  repeat match goal with
         | |- context [String.eqb ?a ?b] => destruct (String.eqb a b)
         end; lia.
Qed.

(** X7. In every store a program can reach, the category state of every
    object is coherent: the order it shows is the index of the selector
    name it shows in [correctOrder] (-1 for the empty name), hence between
    -1 and 5. The two properties are always written together. *)
Theorem category_state_coherent (h : heap) l :
  reachable h -> (l < length h)%nat ->
  exists selector,
    read lastSelector h l = Some selector
    /\ read lastOrder h l = Some (indexOf order_array selector)
    /\ -1 <= indexOf order_array selector <= 5.
Proof.
  intros Hr Hlt.
  pose proof (reachable_heap_ok h Hr) as Hok.
  pose proof (reachable_consistent h Hr) as Hc.
  assert (Hgen : forall f k, (k < f)%nat -> (k < length h)%nat ->
            exists selector,
              lookup_chain lastSelector f h k = Some selector
              /\ lookup_chain lastOrder f h k
                 = Some (indexOf order_array selector)).
  { destruct Hok as [Hbase Hback].
    induction f as [|f IH]; intros k Hk Hkh; [lia|]. simpl.
    destruct (lookup_lt_is_Some_2 h k Hkh) as [o Ho]. rewrite Ho.
    destruct (Hc k o Ho) as [(code & s & _ & -> & ->)|(Hcode & -> & ->)].
    - eauto.
    - destruct (decide (k = self)) as [->|Hne].
      + rewrite Hbase in Ho. injection Ho as <-. discriminate Hcode.
      + destruct (Hback k o Ho Hne) as [_ (p & -> & Hp)].
        apply IH; lia. }
  destruct (Hgen (length h) l Hlt Hlt) as (s & Hs & Ho).
  exists s. split; [exact Hs|]. split; [exact Ho|]. apply indexOf_range.
Qed.

Lemma category_state_coherent_witness :
  let h := snd (stringify 1%nat (snd (copyBuilder self "#x" "id" initial))) in
  (reachable h /\ (1 < length h)%nat)
  /\ exists selector,
       read lastSelector h 1%nat = Some selector
       /\ read lastOrder h 1%nat = Some (indexOf order_array selector)
       /\ -1 <= indexOf order_array selector <= 5.
Proof.
  intros h.
  assert (Hr : reachable h).
  { apply reach_stringify; [|vm_compute; lia].
    apply reach_copyBuilder; [exact reach_initial|vm_compute; lia]. }
  assert (Hlt : (1 < length h)%nat) by (vm_compute; lia).
  split; [split; assumption|].
  exact (category_state_coherent h 1%nat Hr Hlt).
Defined.

(** X8. No call ever changes the entry point: in every store a program can
    reach, after any calls that returned or threw, [cssSelectorBuilder]
    still shows the empty text and no category, so a valid chain started
    on it is accepted and gives exactly its own fragments. *)
Theorem entry_point_stays_fresh (h : heap) :
  reachable h ->
  h !! self = Some literal
  /\ state h self = cleared
  /\ forall calls,
       valid calls = true ->
       exists l h',
         chain self calls h = (Normal l, h')
         /\ fst (stringify l h') = Normal (fragments calls).
Proof.
  intros Hr. pose proof (reachable_heap_ok h Hr) as Hok.
  split; [apply Hok|]. split; [now apply state_self|].
  intros calls Hvalid.
  destruct (chain_valid calls h self None "" Hok (self_allocated h Hok)
              (state_self h Hok) Hvalid)
    as (l & h' & Hrun & Hok' & Hl & Hcode).
  exists l, h'. split; [assumption|].
  destruct (stringify_returns h' l _ Hl Hcode) as (o & _ & ->).
  reflexivity.
Qed.

Lemma entry_point_stays_fresh_witness :
  let h := snd (combine self 1%nat "+" 2%nat
                  (snd (copyBuilder 1%nat "#b" "id"
                          (snd (copyBuilder self ".a" "class" initial))))) in
  reachable h
  /\ state h self = cleared
  /\ exists l h',
       chain self [(Element, "p"); (Id, "q")] h = (Normal l, h')
       /\ fst (stringify l h') = Normal "p#q".
Proof.
  intros h.
  assert (Hr : reachable h).
  { apply reach_combine; [|vm_compute; lia..].
    apply reach_copyBuilder; [|vm_compute; lia].
    apply reach_copyBuilder; [exact reach_initial|vm_compute; lia]. }
  split; [exact Hr|].
  split.
  - exact (proj1 (proj2 (entry_point_stays_fresh h Hr))).
  - exact (proj2 (proj2 (entry_point_stays_fresh h Hr))
             [(Element, "p"); (Id, "q")] eq_refl).
Defined.

(** * Further properties of getJSON and fromJSON *)

(** X10. [getJSON] writes no member whose value is undefined, and
    [fromJSON] hands the constructor the values of the text only: for any
    object of the model and any prototype, the instance built from the
    object's own text is the constructor applied to the values of the
    members that are not undefined, in enumeration order. The values after
    an undefined member therefore reach earlier parameters. *)
Theorem undefined_members_dropped (obj : list (string * value))
    (proto : prototype) :
  well_keyed obj = true -> Forall representable (map snd obj) ->
  exists text,
    getJSON obj = Some text
    /\ JSON_parse text = Some (defined obj)
    /\ fromJSON proto text
       = Some (constructor proto (map snd (defined obj))).
Proof.
  intros Hkeys Hrep.
  destruct (parse_stringify obj Hkeys Hrep) as (text & Htext & Hparse).
  exists text. split; [exact Htext|]. split; [exact Hparse|].
  unfold fromJSON. now rewrite Hparse.
Qed.

Lemma undefined_members_dropped_witness :
  let obj := [("a", VNum 1); ("b", VUndefined); ("c", VStr "x");
              ("d", VUndefined); ("e", VNum (-7))] in
  let proto := {| constructor := positional ["a"; "b"; "c"; "d"; "e"] |} in
  (well_keyed obj = true /\ Forall representable (map snd obj))
  /\ defined obj = [("a", VNum 1); ("c", VStr "x"); ("e", VNum (-7))]
  /\ exists text,
       getJSON obj = Some text
       /\ JSON_parse text = Some (defined obj)
       /\ fromJSON proto text
          = Some [("a", VNum 1); ("b", VStr "x"); ("c", VNum (-7));
                  ("d", VUndefined); ("e", VUndefined)].
Proof.
  intros obj proto.
  assert (Hkeys : well_keyed obj = true) by reflexivity.
  assert (Hrep : Forall representable (map snd obj)).
  { repeat constructor; simpl; unfold MAX_SAFE_INTEGER; lia. }
  split; [split; assumption|]. split; [reflexivity|].
  exact (undefined_members_dropped obj proto Hkeys Hrep).
Defined.
